(** * Song picker: the server function [$getRandomSong] of [src/routes/index.tsx]

    The route module declares a seven-entry [songs] array, a middleware
    [authMiddleware] that adds [{ user: 1 }] to the request context, and the
    server function

    <<
      .handler(async () => {
        await db.execute(sql`SELECT 1`)
        return songs[Math.floor(Math.random() * songs.length)]
      })
    >>

    JavaScript numbers are IEEE 754 binary64 values.  They are modelled with
    the executable specification of the Standard Library ([spec_float] at
    precision 53 and maximal exponent 1024), so that the product
    [Math.random() * songs.length] is rounded the way the engine rounds it. *)

From Stdlib Require Import ZArith List String Bool Lia QArith Qround.
From Stdlib Require Import Floats.SpecFloat.
From Stdlib Require Import Ascii.
Import ListNotations.

Local Open Scope Z_scope.

(** ** JavaScript numbers *)

Module Number.

Definition prec : Z := 53.
Definition emax : Z := 1024.

(** A [Number] is a binary64 datum. *)
Definition Number : Type := spec_float.

Definition valid (x : Number) : bool := valid_binary prec emax x.

Definition mul (x y : Number) : Number := SFmul prec emax x y.

Definition ltb (x y : Number) : bool := SFltb x y.

Definition one : Number := SFone prec emax.

Definition pos_zero : Number := S754_zero false.

(** The conversion of an integer to a number (exact below [2^53]), as
    performed when an array's [length] is read. *)
Definition of_Z (n : Z) : Number := binary_normalize prec emax n 0 false.

(** [Math.floor]: the largest integral number not above the argument.
    Zeros, infinities and NaN are returned as they are; a finite number
    whose exponent is non-negative is already integral. *)
Definition floor (x : Number) : Number :=
  match x with
  | S754_finite s m e =>
      if 0 <=? e then x
      else
        let q := Z.pos m / 2 ^ (- e) in
        let q' := if s then (if Z.pos m mod 2 ^ (- e) =? 0 then - q else - (q + 1))
                  else q in
        binary_normalize prec emax q' 0 s
  | _ => x
  end.

(** The mathematical integer denoted by a number, when the number is
    finite and integral.  This is the value whose decimal spelling is the
    property key used by an indexed access [a[x]]; both zeros spell "0". *)
Definition to_integer (x : Number) : option Z :=
  match x with
  | S754_zero _ => Some 0
  | S754_finite s m e =>
      if 0 <=? e then Some (cond_Zopp s (Z.pos m * 2 ^ e))
      else if Z.pos m mod 2 ^ (- e) =? 0
           then Some (cond_Zopp s (Z.pos m / 2 ^ (- e)))
           else None
  | _ => None
  end.

(** The mantissa and exponent that [binary_round_aux] reaches from an
    exact product, before it classifies them as zero, finite or
    infinite. *)
Definition round_pair (m e : Z) : Z * Z :=
  let '(mrs1, e1) := shr_fexp prec emax m e loc_Exact in
  let '(mrs2, e2) :=
    shr_fexp prec emax
      (round_nearest_even (shr_m mrs1) (loc_of_shr_record mrs1)) e1 loc_Exact in
  (shr_m mrs2, e2).

(** The real value of a finite number, as a rational; [0] for the other
    data. *)
Definition to_Q (x : Number) : Q :=
  match x with
  | S754_finite s m e =>
      if 0 <=? e then inject_Z (cond_Zopp s (Z.pos m * 2 ^ e))
      else cond_Zopp s (Z.pos m) # Z.to_pos (2 ^ (- e))
  | _ => 0%Q
  end.

(** The range of [Math.random()]: a number of positive sign, at least
    [+0] and strictly below [1]. *)
Definition in_unit_interval (r : Number) : bool :=
  match r with
  | S754_zero s => negb s
  | S754_finite s _ _ => negb s && valid r && ltb r one
  | _ => false
  end.

End Number.

Import Number.


(** ** Data model *)

(** An entry of the catalog: [{ id, name, artist }]. *)
Record SongRecord : Type := mkSong {
  id : Z;
  name : string;
  artist : string
}.

(** The module-level array literal [songs]. *)
Definition songs : list SongRecord := [
  mkSong 1 "Teenage Dirtbag" "Wheatus";
  mkSong 2 "Smells Like Teen Spirit" "Nirvana";
  mkSong 3 "The Middle" "Jimmy Eat World";
  mkSong 4 "My Own Worst Enemy" "Lit";
  mkSong 5 "Fat Lip" "Sum 41";
  mkSong 6 "All the Small Things" "blink-182";
  mkSong 7 "Beverly Hills" "Weezer"
].

(** What the handler can hand back: an element of the array, or
    [undefined] when the indexed access finds no element. *)
Inductive JsValue : Type :=
| VUndefined
| VSong (s : SongRecord).

(** The indexed access [a[x]] for a number [x]: the element at the integer
    that [x] denotes, [undefined] when [x] is not a non-negative integer
    or no element is stored there. *)
Definition array_get (a : list SongRecord) (x : Number) : JsValue :=
  match to_integer x with
  | Some i =>
      if 0 <=? i then
        match nth_error a (Z.to_nat i) with
        | Some s => VSong s
        | None => VUndefined
        end
      else VUndefined
  | None => VUndefined
  end.

(** [a.length] as a number. *)
Definition array_length (a : list SongRecord) : Number :=
  of_Z (Z.of_nat (List.length a)).

(** An array holds at most [2^32 - 1] elements. *)
Definition max_array_length : Z := 2 ^ 32 - 1.

(** ** Effects of the handler *)

(** A value thrown, or the reason a promise is rejected with. *)
Record JsError : Type := mkError { message : string }.

(** A row of a query result: column names and values. *)
Definition Row : Type := list (string * Z).

(** The settlement of the promise returned by [db.execute]. *)
Inductive DbReply : Type :=
| Resolved (rows : list Row)
| Rejected (err : JsError).

(** What surrounds one invocation: the answer of the store to a query
    text and the successive results of [Math.random()]. *)
Record Env : Type := mkEnv {
  db_answer : string -> DbReply;
  random_source : nat -> Number
}.

(** The observable actions of an invocation, in program order. *)
Inductive Event : Type :=
| EvQuery (text : string)
| EvRandom (r : Number)
| EvElement (x : Number).

(** The state threaded through an invocation: the array bound to [songs],
    the number of [Math.random()] calls made so far, and the actions
    performed so far. *)
Record State : Type := mkState {
  songs_array : list SongRecord;
  draws : nat;
  trace : list Event
}.

Definition initial_state : State := mkState songs 0 [].

Definition log (ev : Event) (st : State) : State :=
  mkState (songs_array st) (draws st) (trace st ++ [ev]).

(** The completion of an [async] body: a value the promise resolves with,
    or an error it is rejected with. *)
Inductive Completion (A : Type) : Type :=
| Normal (a : A)
| Throw (e : JsError).

Arguments Normal {A} a.
Arguments Throw {A} e.

Module Eff.

Definition t (A : Type) : Type := Env -> State -> Completion A * State.

Definition ret {A : Type} (a : A) : t A := fun _ st => (Normal a, st).

(** Sequencing; a rejection skips the rest of the body. *)
Definition bind {A B : Type} (c : t A) (k : A -> t B) : t B :=
  fun env st =>
    match c env st with
    | (Normal a, st') => k a env st'
    | (Throw e, st') => (Throw e, st')
    end.

(** [await db.execute(text)] *)
Definition db_execute (text : string) : t (list Row) :=
  fun env st =>
    match db_answer env text with
    | Resolved rows => (Normal rows, log (EvQuery text) st)
    | Rejected err => (Throw err, log (EvQuery text) st)
    end.

(** [Math.random()] *)
Definition Math_random : t Number :=
  fun env st =>
    let r := random_source env (draws st) in
    (Normal r, mkState (songs_array st) (S (draws st)) (trace st ++ [EvRandom r])).

(** Evaluation of the identifier [songs]. *)
Definition read_songs : t (list SongRecord) :=
  fun _ st => (Normal (songs_array st), st).

(** [songs.length] *)
Definition songs_length : t Number :=
  bind read_songs (fun a => ret (array_length a)).

(** [songs[x]] *)
Definition songs_get (x : Number) : t JsValue :=
  bind read_songs (fun a => fun env st => (Normal (array_get a x), log (EvElement x) st)).

End Eff.

Declare Scope eff_scope.
Delimit Scope eff_scope with eff.
Notation "x <- c ;; k" := (Eff.bind c (fun x => k))
  (at level 61, c at next level, right associativity) : eff_scope.
Notation "c ;; k" := (Eff.bind c (fun _ => k))
  (at level 61, right associativity) : eff_scope.

(** ** The route module *)

(** The request context: an object from keys to values. *)
Definition Context : Type := list (string * Z).

Fixpoint lookup (key : string) (c : Context) : option Z :=
  match c with
  | [] => None
  | (k, v) :: rest => if String.eqb key k then Some v else lookup key rest
  end.

(** The argument a middleware and the handler are called with. *)
Record ServerFnCtx : Type := mkCtx {
  data : string;
  context : Context
}.

(** A server middleware receives the call and [next]; what it passes to
    [next] is merged over the context of the call. *)
Definition Middleware : Type :=
  ServerFnCtx -> (Context -> Eff.t JsValue) -> Eff.t JsValue.

Fixpoint run_chain (mws : list Middleware) (handler : ServerFnCtx -> Eff.t JsValue)
    (ctx : ServerFnCtx) : Eff.t JsValue :=
  match mws with
  | [] => handler ctx
  | mw :: rest =>
      mw ctx (fun extra =>
        run_chain rest handler (mkCtx (data ctx) (extra ++ context ctx)))
  end.

(** [authMiddleware]: [async ({ next }) => next({ context: { user: 1 } })]. *)
Definition authMiddleware : Middleware :=
  fun _ next => next [("user"%string, 1)].

(** The body given to [.handler]: it takes no argument. *)
Definition handler (_ : ServerFnCtx) : Eff.t JsValue :=
  (_ <- Eff.db_execute "SELECT 1" ;;
   r <- Eff.Math_random ;;
   len <- Eff.songs_length ;;
   Eff.songs_get (floor (mul r len)))%eff.

(** [$getRandomSong]: a call with payload [payload] runs the middleware
    chain [[authMiddleware]] and then the handler. *)
Definition getRandomSong (payload : string) : Eff.t JsValue :=
  run_chain [authMiddleware] handler (mkCtx payload []).

(** ** The index expression over exact arithmetic *)

(** [Math.floor(r * n)] for a real [r], without rounding of the product. *)
Definition exact_index (n : nat) (r : Q) : Z :=
  Qfloor (r * inject_Z (Z.of_nat n)).

(** ** Properties of catalogs and reachable states *)

Definition ids (a : list SongRecord) : list Z := map id a.

Record catalog_ok (a : list SongRecord) : Prop := {
  ok_nonempty : (1 <= List.length a)%nat;
  ok_ids_positive : Forall (fun s => 0 < id s) a;
  ok_ids_distinct : NoDup (ids a);
  ok_texts_nonempty : Forall (fun s => name s <> ""%string /\ artist s <> ""%string) a
}.

(** The states the module can be in: the initial one, and the state left
    by any call of the server function in a reachable state. *)
Inductive reachable : State -> Prop :=
| reach_init : reachable initial_state
| reach_call (st : State) (payload : string) (env : Env) :
    reachable st -> reachable (snd (getRandomSong payload env st)).

(** ** Concrete inputs used in examples *)

(** The numbers [0.5] and [1 - 2^-53], the largest number below one. *)
Definition one_half : Number := S754_finite false (2 ^ 52) (-53).
Definition below_one : Number := S754_finite false (2 ^ 53 - 1) (-53).

(** The largest number below [1/7]: [(2^55 - 2) / 7 * 2^-55]. *)
Definition below_one_seventh : Number := S754_finite false 5146971002709138 (-55).

(** A store that answers every query with one row, and one that is
    unreachable. *)
Definition healthy_env (r : Number) : Env :=
  mkEnv (fun _ => Resolved [[("1"%string, 1)]]) (fun _ => r).
Definition failing_env (r : Number) : Env :=
  mkEnv (fun _ => Rejected (mkError "unable to open database file")) (fun _ => r).

Definition two_songs : list SongRecord := [
  mkSong 1 "Teenage Dirtbag" "Wheatus";
  mkSong 2 "Smells Like Teen Spirit" "Nirvana"
].

(** A state whose [songs] array has no element, and one with two. *)
Definition empty_state : State := mkState [] 0 [].
Definition two_songs_state : State := mkState two_songs 0 [].

(** Reading the identifier [songs] twice in a row. *)
Definition read_songs_twice : Eff.t (list SongRecord * list SongRecord) :=
  (a <- Eff.read_songs ;; b <- Eff.read_songs ;; Eff.ret (a, b))%eff.

(** ** A draw for a given index *)

(** The least multiple of [2^-53] that is at least [i / n], as a number:
    the integer [ceil (i * 2^53 / n)] with its exponent lowered by 53. *)
Definition draw_for (n i : Z) : Number :=
  match of_Z ((i * 2 ^ 53 + n - 1) / n) with
  | S754_finite s m e => S754_finite s m (e - 53)
  | other => other
  end.

(** ** The share of a record

    The unit roundoff of binary64, [2^-53], and the two intervals that
    enclose the draws selecting the record of index [i] among seven:
    [[i/7, (i+1) / (7 (1 + 2^-53)))] inside and
    [[i / (7 (1 + 2^-53)), (i+1)/7)] outside. *)
Definition roundoff : Q := 1 # 9007199254740992.

Definition share_inner_lo (i : Z) : Q := i # 7.
Definition share_inner_hi (i : Z) : Q :=
  ((i + 1) * 9007199254740992) # 63050394783186951.
Definition share_outer_lo (i : Z) : Q :=
  (i * 9007199254740992) # 63050394783186951.
Definition share_outer_hi (i : Z) : Q := (i + 1) # 7.

(** ** The button of the page *)

(** The text that [onSuccess] gives to [alert]:
    [`Random song: ${data.name} by ${data.artist}`]. *)
Definition alert_text (s : SongRecord) : string :=
  ("Random song: " ++ name s ++ " by " ++ artist s)%string.

(** [onSuccess]: the alerts shown so far, extended by the new one.  When
    [data] is [undefined], reading [data.name] throws before [alert] is
    called. *)
Definition onSuccess (data : JsValue) (alerts : list string)
  : Completion unit * list string :=
  match data with
  | VSong s => (Normal tt, alerts ++ [alert_text s])
  | VUndefined =>
      (Throw (mkError "TypeError: undefined is not an object"), alerts)
  end.

(** [handleClick]: [mutation.mutate({})] calls the server function and,
    when the call resolves, [onSuccess] with the value; [mutate] returns
    nothing and lets no error out. *)
Definition handleClick (env : Env) (st : State) (alerts : list string)
  : State * list string :=
  match getRandomSong "{}" env st with
  | (Normal data, st') => (st', snd (onSuccess data alerts))
  | (Throw _, st') => (st', alerts)
  end.

(** ** Counting the actions of a trace *)






(** ** Detection of server functions by the compiler plugin

    [SERVER_CODE_LEAK_FIX.md] records the pattern with which the plugin
    decides that a file holds a server function, and its repair:

    <<
      -  ServerFn: /\.handler\s*\(/,
      +  ServerFn: /\.\s*handler\s*\(/,
    >>

    Source text is a sequence of UTF-16 code units; a pattern detects a
    text when some part of the text matches it. *)

Module Detect.

Definition CodeUnit : Type := N.

Definition code_units (s : string) : list CodeUnit :=
  map N_of_ascii (list_ascii_of_string s).

(** The class [\s]: white space and line terminators. *)
Definition is_white_space (c : CodeUnit) : bool :=
  ((9 <=? c) && (c <=? 13) || (c =? 32) || (c =? 160) || (c =? 5760)
   || (8192 <=? c) && (c <=? 8202) || (c =? 8232) || (c =? 8233)
   || (c =? 8239) || (c =? 8287) || (c =? 12288) || (c =? 65279))%N.

(** The patterns needed: a code unit, [\s], sequence, alternative and
    [*], with the empty pattern and the pattern that matches nothing. *)
Inductive regex : Type :=
| Void
| Eps
| Chr (c : CodeUnit)
| WhiteSpace
| Seq (r1 r2 : regex)
| Alt (r1 r2 : regex)
| Star (r : regex).

Inductive matches : regex -> list CodeUnit -> Prop :=
| m_eps : matches Eps []
| m_chr (c : CodeUnit) : matches (Chr c) [c]
| m_space (c : CodeUnit) : is_white_space c = true -> matches WhiteSpace [c]
| m_seq (r1 r2 : regex) (s1 s2 : list CodeUnit) :
    matches r1 s1 -> matches r2 s2 -> matches (Seq r1 r2) (s1 ++ s2)
| m_alt_l (r1 r2 : regex) (s : list CodeUnit) :
    matches r1 s -> matches (Alt r1 r2) s
| m_alt_r (r1 r2 : regex) (s : list CodeUnit) :
    matches r2 s -> matches (Alt r1 r2) s
| m_star_nil (r : regex) : matches (Star r) []
| m_star_cons (r : regex) (s1 s2 : list CodeUnit) :
    matches r s1 -> matches (Star r) s2 -> matches (Star r) (s1 ++ s2).

(** A pattern detects a text when a part of the text matches. *)
Definition detects (r : regex) (code : list CodeUnit) : Prop :=
  exists pre m post, code = pre ++ m ++ post /\ matches r m.

(** Matching by derivatives. *)
Fixpoint nullable (r : regex) : bool :=
  match r with
  | Void => false
  | Eps => true
  | Chr _ => false
  | WhiteSpace => false
  | Seq r1 r2 => nullable r1 && nullable r2
  | Alt r1 r2 => nullable r1 || nullable r2
  | Star _ => true
  end.

Fixpoint deriv (c : CodeUnit) (r : regex) : regex :=
  match r with
  | Void => Void
  | Eps => Void
  | Chr c' => if (c =? c')%N then Eps else Void
  | WhiteSpace => if is_white_space c then Eps else Void
  | Seq r1 r2 =>
      if nullable r1 then Alt (Seq (deriv c r1) r2) (deriv c r2)
      else Seq (deriv c r1) r2
  | Alt r1 r2 => Alt (deriv c r1) (deriv c r2)
  | Star r1 => Seq (deriv c r1) (Star r1)
  end.

(** Does a prefix of the text match? *)
Fixpoint match_prefix (r : regex) (code : list CodeUnit) : bool :=
  nullable r ||
  match code with
  | [] => false
  | c :: rest => match_prefix (deriv c r) rest
  end.

(** [pattern.test(code)]: a match is tried at every position. *)
Fixpoint test (r : regex) (code : list CodeUnit) : bool :=
  match_prefix r code ||
  match code with
  | [] => false
  | _ :: rest => test r rest
  end.

(** A literal text as a pattern. *)
Definition lit (s : string) : regex :=
  fold_right (fun c r => Seq (Chr c) r) Eps (code_units s).

(** [/\.handler\s*\(/] *)
Definition ServerFn_before : regex :=
  Seq (lit ".handler") (Seq (Star WhiteSpace) (lit "(")).

(** [/\.\s*handler\s*\(/] *)
Definition ServerFn_after : regex :=
  Seq (lit ".") (Seq (Star WhiteSpace)
    (Seq (lit "handler") (Seq (Star WhiteSpace) (lit "(")))).

(** The call chain as written in the route file, and as the plugin
    received it after reformatting. *)
Definition chain_as_written : list CodeUnit :=
  code_units "const $getRandomSong = createServerFn({" ++ [10%N] ++
  code_units "  method: 'POST'," ++ [10%N] ++
  code_units "})" ++ [10%N] ++
  code_units "  .middleware([authMiddleware])" ++ [10%N] ++
  code_units "  .handler(async () => {".

Definition chain_as_received : list CodeUnit :=
  code_units "const $getRandomSong = createServerFn({" ++ [10%N] ++
  code_units "  method: 'POST'" ++ [10%N] ++
  code_units "})." ++ [10%N] ++
  code_units "middleware([authMiddleware])." ++ [10%N] ++
  code_units "handler(async () => {".

End Detect.

(** ** Facts about binary64 rounding *)

Module NumberFacts.

Lemma Zdiv_eq_iff (a q i : Z) :
  0 < q -> (a / q = i <-> i * q <= a < (i + 1) * q).
Proof.
  intro Hq. split.
  - intros <-. pose proof (Z.div_mod a q ltac:(lia)) as Hdm.
    pose proof (Z.mod_pos_bound a q Hq). nia.
  - intros [Hlo Hhi]. symmetry.
    apply (Z.div_unique a q i (a - i * q)); [left; lia | lia].
Qed.

Lemma digits2_pos_bounds (p : positive) :
  2 ^ (Z.pos (digits2_pos p) - 1) <= Z.pos p < 2 ^ Z.pos (digits2_pos p).
Proof.
  induction p as [p IH | p IH | ]; cbn [digits2_pos].
  - rewrite Pos2Z.inj_succ, Z.pow_succ_r by lia.
    replace (Z.succ (Z.pos (digits2_pos p)) - 1)
      with (Z.succ (Z.pos (digits2_pos p) - 1)) by lia.
    rewrite Z.pow_succ_r by lia. lia.
  - rewrite Pos2Z.inj_succ, Z.pow_succ_r by lia.
    replace (Z.succ (Z.pos (digits2_pos p)) - 1)
      with (Z.succ (Z.pos (digits2_pos p) - 1)) by lia.
    rewrite Z.pow_succ_r by lia. lia.
  - cbn. lia.
Qed.

Lemma iter_pos_nat {A : Type} (f : A -> A) (p : positive) (x : A) :
  iter_pos f p x = Nat.iter (Pos.to_nat p) f x.
Proof.
  revert x. induction p as [p IH | p IH | ]; intro x; cbn [iter_pos].
  - rewrite !IH, Pos2Nat.inj_xI.
    replace (S (2 * Pos.to_nat p))%nat
      with (Pos.to_nat p + (Pos.to_nat p + 1))%nat by lia.
    rewrite !Nat.iter_add. reflexivity.
  - rewrite !IH, Pos2Nat.inj_xO.
    replace (2 * Pos.to_nat p)%nat
      with (Pos.to_nat p + Pos.to_nat p)%nat by lia.
    rewrite Nat.iter_add. reflexivity.
  - reflexivity.
Qed.

(** One right shift halves the mantissa and moves its low bit into the
    round bit. *)
Lemma shr_1_spec (mrs : shr_record) :
  0 <= shr_m mrs ->
  shr_m (shr_1 mrs) = shr_m mrs / 2 /\ shr_r (shr_1 mrs) = Z.odd (shr_m mrs).
Proof.
  destruct mrs as [m r s]. cbn [shr_m]. intro Hm.
  rewrite <- Z.div2_div.
  destruct m as [ | [p | p | ] | p ]; cbn; try lia; auto.
Qed.

Lemma shr_iter_spec (m : Z) (k : nat) :
  0 <= m ->
  let mrs := Nat.iter k shr_1 (Build_shr_record m false false) in
  shr_m mrs = m / 2 ^ Z.of_nat k /\
  (shr_r mrs = true -> (0 < k)%nat /\ 2 ^ (Z.of_nat k - 1) <= m mod 2 ^ Z.of_nat k).
Proof.
  intro Hm. induction k as [ | k IH ]; cbn zeta.
  - cbn. rewrite Z.div_1_r. split; [reflexivity | discriminate].
  - rewrite Nat.iter_succ. cbn zeta in IH. destruct IH as [IHm _].
    remember (Nat.iter k shr_1 (Build_shr_record m false false)) as mrs eqn:E.
    clear E.
    assert (Hpos : 0 < 2 ^ Z.of_nat k) by (apply Z.pow_pos_nonneg; lia).
    assert (Hge : 0 <= shr_m mrs) by (rewrite IHm; apply Z.div_pos; lia).
    destruct (shr_1_spec mrs Hge) as [Hm1 Hr1].
    rewrite Nat2Z.inj_succ, Z.pow_succ_r by lia.
    split.
    + rewrite Hm1, IHm, Z.div_div by lia. f_equal. lia.
    + rewrite Hr1, IHm. intro Hodd. split; [lia | ].
      replace (Z.succ (Z.of_nat k) - 1) with (Z.of_nat k) by lia.
      rewrite (Z.mul_comm 2), Z.rem_mul_r by lia.
      rewrite Zmod_odd, Hodd. pose proof (Z.mod_pos_bound m (2 ^ Z.of_nat k) Hpos). lia.
Qed.

Lemma shr_spec (m e k : Z) :
  0 <= m ->
  let '(mrs, e') := shr (Build_shr_record m false false) e k in
  e' = e + Z.max k 0 /\
  shr_m mrs = m / 2 ^ Z.max k 0 /\
  (shr_r mrs = true -> 1 <= k /\ 2 ^ (k - 1) <= m mod 2 ^ k).
Proof.
  intro Hm. destruct k as [ | p | p ]; cbn [shr].
  - cbn. rewrite Z.div_1_r. repeat split; (lia || discriminate).
  - rewrite iter_pos_nat.
    pose proof (shr_iter_spec m (Pos.to_nat p) Hm) as H. cbn zeta in H.
    rewrite positive_nat_Z in H. destruct H as [H1 H2].
    rewrite Z.max_l by lia. repeat split; try assumption; try lia.
    apply H2; assumption.
  - cbn [shr_m shr_r]. rewrite Z.max_r by lia. cbn. rewrite Z.div_1_r.
    repeat split; (lia || discriminate).
Qed.

Lemma round_nearest_even_bounds (mrs : shr_record) :
  let m' := round_nearest_even (shr_m mrs) (loc_of_shr_record mrs) in
  shr_m mrs <= m' <= shr_m mrs + (if shr_r mrs then 1 else 0).
Proof.
  destruct mrs as [m [ | ] [ | ]]; cbn; try lia.
  destruct (Z.even m); lia.
Qed.

Lemma Zdigits2_nonneg (m : Z) : 0 <= Zdigits2 m.
Proof. destruct m; cbn; lia. Qed.

Lemma Zdigits2_le (m t : Z) : 0 <= t -> 0 <= m < 2 ^ t -> Zdigits2 m <= t.
Proof.
  intros Ht [Hm0 Hm]. destruct m as [ | p | p ]; cbn [Zdigits2]; try lia.
  pose proof (digits2_pos_bounds p) as Hd.
  destruct (Z_le_gt_dec (Z.pos (digits2_pos p)) t) as [ | Hgt ]; [assumption | ].
  exfalso.
  assert (2 ^ t <= 2 ^ (Z.pos (digits2_pos p) - 1)) by (apply Z.pow_le_mono_r; lia).
  lia.
Qed.

(** The steps of the rounding of an exact mantissa [m] at exponent [e]:
    [K] bits are shifted out, the shifted mantissa [m / 2^K] is kept or
    incremented, which exceeds the exact value by at most half a unit in
    the last place, and the outcome [m1] is shifted by [K2] more bits when
    the increment made it too wide. *)
Lemma round_pair_anatomy (m e : Z) :
  0 <= m ->
  let k := fexp prec emax (Zdigits2 m + e) - e in
  let K := Z.max k 0 in
  exists m1 : Z,
    m / 2 ^ K <= m1 <= m / 2 ^ K + 1 /\
    m1 * 2 ^ K <= m + (if 1 <=? k then 2 ^ (k - 1) else 0) /\
    let K2 := Z.max (fexp prec emax (Zdigits2 m1 + (e + K)) - (e + K)) 0 in
    round_pair m e = (m1 / 2 ^ K2, e + K + K2).
Proof.
  intros Hm k K. unfold round_pair, shr_fexp. fold k.
  cbn [shr_record_of_loc].
  pose proof (shr_spec m e k Hm) as H1.
  destruct (shr (Build_shr_record m false false) e k) as [mrs1 e1].
  destruct H1 as (He1 & Hm1 & Hr1). fold K in He1, Hm1.
  pose proof (round_nearest_even_bounds mrs1) as Hrne. cbn zeta in Hrne.
  set (m1 := round_nearest_even (shr_m mrs1) (loc_of_shr_record mrs1)) in *.
  clearbody m1.
  assert (HK0 : 0 < 2 ^ K) by (apply Z.pow_pos_nonneg; lia).
  assert (Hm1' : 0 <= shr_m mrs1) by (rewrite Hm1; apply Z.div_pos; lia).
  exists m1. subst e1.
  split; [destruct (shr_r mrs1); lia | ].
  split.
  - pose proof (Z.div_mod m (2 ^ K) ltac:(lia)) as Hdm.
    pose proof (Z.mod_pos_bound m (2 ^ K) HK0) as Hmod.
    rewrite <- Hm1 in Hdm.
    destruct (shr_r mrs1) eqn:Er.
    + destruct (Hr1 eq_refl) as [Hk Hhalf].
      assert (HKk : K = k) by lia. rewrite HKk in *.
      replace (1 <=? k) with true by (symmetry; apply Z.leb_le; lia).
      assert (E2 : 2 ^ k = 2 * 2 ^ (k - 1)).
      { rewrite <- Z.pow_succ_r by lia. f_equal. lia. }
      nia.
    + assert (0 <= (if 1 <=? k then 2 ^ (k - 1) else 0)).
      { destruct (1 <=? k); [apply Z.pow_nonneg | ]; lia. }
      nia.
  - cbn zeta.
    pose proof (shr_spec m1 (e + K)
                  (fexp prec emax (Zdigits2 m1 + (e + K)) - (e + K))
                  ltac:(lia)) as H2.
    destruct (shr (Build_shr_record m1 false false) (e + K)
                (fexp prec emax (Zdigits2 m1 + (e + K)) - (e + K))) as [mrs2 e2].
    destruct H2 as (He2 & Hm2 & _). rewrite Hm2, He2. reflexivity.
Qed.

(** Rounding to nearest never exceeds the exact value by more than half a
    unit in the last place.  With [k] the number of bits shifted out, and
    in units of [2^e]: the result [m2 * 2^(e2 - e)] is at most
    [m + 2^(k-1)] when bits are shifted out, and at most [m] otherwise. *)
Lemma round_pair_bound (m e : Z) :
  0 <= m ->
  let k := fexp prec emax (Zdigits2 m + e) - e in
  let '(m2, e2) := round_pair m e in
  0 <= m2 /\ e <= e2 /\
  m2 * 2 ^ (e2 - e) <= m + (if 1 <=? k then 2 ^ (k - 1) else 0).
Proof.
  intros Hm k.
  destruct (round_pair_anatomy m e Hm) as (m1 & Hm1 & Hhalf & Hpair).
  cbn zeta in Hpair. fold k in Hm1, Hhalf, Hpair. rewrite Hpair.
  set (K := Z.max k 0) in *.
  set (K2 := Z.max (fexp prec emax (Zdigits2 m1 + (e + K)) - (e + K)) 0) in *.
  assert (HK : 0 <= K) by apply Z.le_max_r.
  assert (HK2 : 0 <= K2) by apply Z.le_max_r.
  assert (HKk : k <= K) by apply Z.le_max_l.
  clearbody K2 K.
  assert (HpK : 0 < 2 ^ K) by (apply Z.pow_pos_nonneg; lia).
  assert (HpK2 : 0 < 2 ^ K2) by (apply Z.pow_pos_nonneg; lia).
  assert (Hm0 : 0 <= m / 2 ^ K) by (apply Z.div_pos; lia).
  split; [apply Z.div_pos; lia | ].
  split; [lia | ].
  replace (e + K + K2 - e) with (K2 + K) by lia.
  rewrite Z.pow_add_r by lia.
  assert (Hs2 : m1 / 2 ^ K2 * 2 ^ K2 <= m1).
  { rewrite Z.mul_comm. apply Z.mul_div_le; lia. }
  nia.
Qed.

Lemma binary_round_aux_pair (s : bool) (m e : Z) :
  binary_round_aux prec emax s m e loc_Exact =
  let '(m2, e2) := round_pair m e in
  match m2 with
  | Z0 => S754_zero s
  | Zpos p => if e2 <=? emax - prec then S754_finite s p e2 else S754_infinity s
  | Zneg _ => S754_nan
  end.
Proof.
  unfold binary_round_aux, round_pair.
  destruct (shr_fexp prec emax m e loc_Exact) as [mrs1 e1].
  destruct (shr_fexp prec emax _ e1 loc_Exact) as [mrs2 e2].
  reflexivity.
Qed.

(** A mantissa that is already canonical is left alone by the rounding. *)
Lemma binary_round_aux_canonical (s : bool) (m : positive) (e : Z) :
  canonical_mantissa prec emax m e = true ->
  e <= emax - prec ->
  binary_round_aux prec emax s (Z.pos m) e loc_Exact = S754_finite s m e.
Proof.
  unfold canonical_mantissa. intros Hc He. apply Z.eqb_eq in Hc.
  unfold binary_round_aux, shr_fexp. cbn [Zdigits2 shr_record_of_loc].
  rewrite Hc, Z.sub_diag.
  cbn [shr shr_m loc_of_shr_record round_nearest_even Zdigits2 shr_record_of_loc].
  rewrite Hc, Z.sub_diag. cbn [shr shr_m].
  apply Z.leb_le in He. rewrite He. reflexivity.
Qed.

Lemma iter_xO_spec (p k : positive) :
  Z.pos (Pos.iter xO p k) = Z.pos p * 2 ^ Z.pos k /\
  Z.pos (digits2_pos (Pos.iter xO p k)) = Z.pos (digits2_pos p) + Z.pos k.
Proof.
  induction k as [ | k [IH1 IH2] ] using Pos.peano_ind.
  - cbn [Pos.iter digits2_pos]. rewrite Pos2Z.inj_succ. split; lia.
  - rewrite Pos.iter_succ. cbn [digits2_pos].
    rewrite !Pos2Z.inj_succ, Pos2Z.inj_xO, IH1, IH2, Z.pow_succ_r by lia.
    split; lia.
Qed.

(** An integer below [2^53] converts exactly: the number has a 53-bit
    mantissa [n * 2^(-ey)] and an exponent [ey] in [[-52, 0]]. *)
Lemma of_Z_pos (n : Z) :
  0 < n < 2 ^ 53 ->
  exists (my : positive) (ey : Z),
    of_Z n = S754_finite false my ey /\
    -52 <= ey <= 0 /\ Z.pos my = n * 2 ^ (- ey).
Proof.
  intros [Hn0 Hn]. destruct n as [ | p | p ]; try lia.
  unfold of_Z, binary_normalize, binary_round.
  pose proof (digits2_pos_bounds p) as Hd.
  set (d := Z.pos (digits2_pos p)) in *.
  assert (Hd53 : 1 <= d <= 53).
  { split; [subst d; lia | ].
    destruct (Z_le_gt_dec d 53) as [ | Hgt ]; [assumption | exfalso ].
    assert (2 ^ 53 <= 2 ^ (d - 1)) by (apply Z.pow_le_mono_r; lia). lia. }
  assert (Hf : fexp prec emax (d + 0) = d - 53).
  { unfold fexp, SpecFloat.emin, prec, emax. lia. }
  rewrite Hf. unfold shl_align.
  destruct (d - 53 - 0) as [ | q | q ] eqn:Eq; try lia.
  - exists p, 0. split; [ | split; [lia | cbn; lia ] ].
    apply binary_round_aux_canonical; [ | unfold emax, prec; lia ].
    unfold canonical_mantissa. fold d. rewrite Hf. apply Z.eqb_eq. lia.
  - destruct (iter_xO_spec p q) as [Hv Hdig].
    exists (Pos.iter xO p q), (d - 53). split; [ | split; [lia | ] ].
    + apply binary_round_aux_canonical; [ | unfold emax, prec; lia ].
      unfold canonical_mantissa. rewrite Hdig. fold d.
      unfold fexp, SpecFloat.emin, prec, emax. apply Z.eqb_eq. lia.
    + rewrite Hv. f_equal. f_equal. lia.
Qed.

Lemma to_integer_of_Z (n : Z) :
  0 <= n < 2 ^ 53 -> to_integer (of_Z n) = Some n.
Proof.
  intros [Hn0 Hn]. destruct (Z.eq_dec n 0) as [-> | Hnz]; [reflexivity | ].
  destruct (of_Z_pos n ltac:(lia)) as (my & ey & -> & Hey & Hmy).
  cbn [to_integer cond_Zopp]. rewrite Hmy.
  assert (0 < 2 ^ (- ey)) by (apply Z.pow_pos_nonneg; lia).
  destruct (0 <=? ey) eqn:E.
  - apply Z.leb_le in E. replace ey with 0 by lia. cbn. f_equal. lia.
  - rewrite Z.mod_mul, Z.div_mul by lia. reflexivity.
Qed.

Lemma one_eq : one = S754_finite false 4503599627370496 (-52).
Proof. reflexivity. Qed.

(** A finite number in the range of [Math.random()] is positive, has an
    exponent of at most [-53] and a mantissa below [2^53]; its value is
    therefore at most [1 - 2^-53]. *)
Lemma in_unit_interval_finite (s : bool) (mx : positive) (ex : Z) :
  in_unit_interval (S754_finite s mx ex) = true ->
  s = false /\ ex <= -53 /\ Z.pos mx < 2 ^ 53.
Proof.
  unfold in_unit_interval. intro H.
  apply andb_true_iff in H. destruct H as [H Hlt].
  apply andb_true_iff in H. destruct H as [Hs Hv].
  apply negb_true_iff in Hs. subst s. split; [reflexivity | ].
  unfold valid, valid_binary, bounded in Hv.
  apply andb_true_iff in Hv. destruct Hv as [Hc _].
  unfold canonical_mantissa in Hc. apply Z.eqb_eq in Hc.
  pose proof (digits2_pos_bounds mx) as Hd.
  set (d := Z.pos (digits2_pos mx)) in *. clearbody d.
  unfold fexp, SpecFloat.emin, prec, emax in Hc.
  rewrite one_eq in Hlt. unfold ltb, SFltb, SFcompare in Hlt.
  assert (Hex : ex <= -53).
  { destruct (ex ?= -52) eqn:He.
    - apply Z.compare_eq in He. subst ex.
      destruct (Pos.compare_cont Eq mx 4503599627370496) eqn:Ec;
        try discriminate Hlt.
      clear Hlt.
      apply (proj1 (Pos.compare_lt_iff mx 4503599627370496)) in Ec.
      apply Pos2Z.pos_lt_pos in Ec.
      change (Z.pos 4503599627370496) with (2 ^ 52) in Ec.
      assert (d <= 52).
      { destruct (Z_le_gt_dec d 52) as [ | Hgt ]; [assumption | exfalso ].
        assert (2 ^ 52 <= 2 ^ (d - 1)) by (apply Z.pow_le_mono_r; lia).
        lia. }
      lia.
    - rewrite Z.compare_lt_iff in He. lia.
    - discriminate Hlt. }
  clear Hlt.
  split; [assumption | ].
  assert (d <= 53) by lia.
  assert (2 ^ d <= 2 ^ 53) by (apply Z.pow_le_mono_r; lia). lia.
Qed.

(** The exact product of a number below one and a positive integer, plus
    half a unit in the last place, stays below the integer: in units of
    [2^(ex+ey)], below the mantissa of the integer scaled by [2^(-ex)]. *)
Lemma product_half_ulp_lt (mx my : positive) (ex ey : Z) :
  ex <= -53 -> Z.pos mx < 2 ^ 53 -> -1022 < ey ->
  let k := fexp prec emax (Zdigits2 (Z.pos (mx * my)) + (ex + ey)) - (ex + ey) in
  Z.pos (mx * my) + (if 1 <=? k then 2 ^ (k - 1) else 0) < Z.pos my * 2 ^ (- ex).
Proof.
  intros Hex Hmx Hey k. cbn [Zdigits2] in k.
  pose proof (digits2_pos_bounds (mx * my)) as Hd.
  set (d := Z.pos (digits2_pos (mx * my))) in *. clearbody d.
  rewrite Pos2Z.inj_mul in *.
  set (T := 2 ^ (- ex - 53)).
  assert (HT : 1 <= T).
  { unfold T. change 1 with (2 ^ 0). apply Z.pow_le_mono_r; lia. }
  assert (Hpow : 2 ^ (- ex) = 2 ^ 53 * T).
  { unfold T. rewrite <- Z.pow_add_r by lia. f_equal. lia. }
  rewrite Hpow.
  assert (Hk : k = d - 53 \/ k = - 1074 - (ex + ey)).
  { unfold k, fexp, SpecFloat.emin, prec, emax. lia. }
  clearbody k.
  assert (Hh : (if 1 <=? k then 2 ^ (k - 1) else 0) < Z.pos my * T).
  { destruct (1 <=? k) eqn:E; [apply Z.leb_le in E | nia ].
    destruct Hk as [Hk | Hk].
    - assert (E2 : 2 ^ (d - 1) = 2 ^ (k - 1) * 2 ^ 53).
      { rewrite <- Z.pow_add_r by lia. f_equal. lia. }
      assert (0 < 2 ^ (k - 1)) by (apply Z.pow_pos_nonneg; lia).
      nia.
    - assert (2 ^ (k - 1) < T).
      { unfold T. apply Z.pow_lt_mono_r; lia. }
      nia. }
  clearbody T. nia.
Qed.

(** The rounded product of a number below one and a positive integer
    stays below the integer. *)
Lemma round_pair_product_lt (mx my : positive) (ex ey : Z) :
  ex <= -53 -> Z.pos mx < 2 ^ 53 -> -1022 < ey ->
  let '(m2, e2) := round_pair (Z.pos (mx * my)) (ex + ey) in
  0 <= m2 /\ ex + ey <= e2 /\
  m2 * 2 ^ (e2 - (ex + ey)) < Z.pos my * 2 ^ (- ex).
Proof.
  intros Hex Hmx Hey.
  pose proof (round_pair_bound (Z.pos (mx * my)) (ex + ey) ltac:(lia)) as Hb.
  cbn zeta in Hb.
  destruct (round_pair (Z.pos (mx * my)) (ex + ey)) as [m2 e2].
  destruct Hb as (Hm2 & He2 & Hb).
  split; [assumption | split; [assumption | ] ].
  eapply Z.le_lt_trans; [exact Hb | ].
  apply product_half_ulp_lt; assumption.
Qed.

(** The rounded product against the exact one.  With [E] the integer part
    of the exact product [mx * 2^ex * n], the rounded product lies between
    [E] and [E + 1]: integers below [2^53] are representable, and rounding
    does not step over a representable number. *)
Lemma round_pair_product_near (mx my : positive) (ex ey n : Z) :
  ex <= -53 -> Z.pos mx < 2 ^ 53 -> -1022 < ey <= 0 ->
  Z.pos my = n * 2 ^ (- ey) -> 0 < n < 2 ^ 53 ->
  let E := (Z.pos mx * n) / 2 ^ (- ex) in
  let '(m2, e2) := round_pair (Z.pos (mx * my)) (ex + ey) in
  e2 <= 0 /\ E * 2 ^ (- e2) <= m2 <= (E + 1) * 2 ^ (- e2).
Proof.
  intros Hex Hmx Hey Hmy Hn E.
  pose proof (product_half_ulp_lt mx my ex ey Hex Hmx ltac:(lia)) as Hhalf.
  cbn zeta in Hhalf.
  destruct (round_pair_anatomy (Z.pos (mx * my)) (ex + ey) ltac:(lia))
    as (m1 & Hm1 & Hs1 & Hpair).
  cbn zeta in Hpair. rewrite Hpair. clear Hpair.
  set (M := Z.pos (mx * my)) in *. set (e := ex + ey) in *.
  set (k := fexp prec emax (Zdigits2 M + e) - e) in *.
  set (h := if 1 <=? k then 2 ^ (k - 1) else 0) in *.
  set (K := Z.max k 0) in *.
  set (K2 := Z.max (fexp prec emax (Zdigits2 m1 + (e + K)) - (e + K)) 0).
  assert (Hh : 0 <= h).
  { unfold h. destruct (1 <=? k); [apply Z.pow_nonneg | ]; lia. }
  clearbody h.
  assert (He : e <= -53) by (unfold e; lia).
  set (D := 2 ^ (- e)).
  assert (HD : D = 2 ^ (- ex) * 2 ^ (- ey)).
  { unfold D, e. rewrite <- Z.pow_add_r by lia. f_equal; lia. }
  assert (Hpx : 0 < 2 ^ (- ex)) by (apply Z.pow_pos_nonneg; lia).
  assert (Hpy : 0 < 2 ^ (- ey)) by (apply Z.pow_pos_nonneg; lia).
  assert (HM : M = Z.pos mx * n * 2 ^ (- ey)).
  { unfold M. rewrite Pos2Z.inj_mul, Hmy. ring. }
  assert (HM0 : 0 < M) by (unfold M; lia).
  assert (HE : E = M / D).
  { unfold E. rewrite HM, HD. rewrite Z.div_mul_cancel_r by lia. reflexivity. }
  assert (HDpos : 0 < D) by (unfold D; apply Z.pow_pos_nonneg; lia).
  assert (HEb : E * D <= M < (E + 1) * D).
  { apply Zdiv_eq_iff; [assumption | symmetry; exact HE]. }
  assert (HE0 : 0 <= E).
  { rewrite HE. apply Z.div_pos; lia. }
  assert (Hbig : M + h < n * D).
  { rewrite HD. rewrite Hmy in Hhalf. lia. }
  assert (H53 : 2 ^ 53 * D = 2 ^ (53 - e)).
  { unfold D. rewrite <- Z.pow_add_r by lia. f_equal; lia. }
  (* the first shift stays within the fraction bits *)
  assert (HdM : Zdigits2 M <= 53 - e).
  { apply Zdigits2_le; [lia | ]. split; [lia | ]. rewrite <- H53. nia. }
  assert (HK : 0 <= K <= - e).
  { unfold K, k, fexp, SpecFloat.emin, prec, emax.
    pose proof (Zdigits2_nonneg M). lia. }
  clearbody K. clear k.
  set (D1 := 2 ^ (- e - K)).
  assert (HD1 : D = 2 ^ K * D1).
  { unfold D, D1. rewrite <- Z.pow_add_r by lia. f_equal; lia. }
  clearbody M E D.
  assert (HpK : 0 < 2 ^ K) by (apply Z.pow_pos_nonneg; lia).
  assert (HpD1 : 0 < D1) by (unfold D1; apply Z.pow_pos_nonneg; lia).
  assert (Hlo1 : E * D1 <= M / 2 ^ K).
  { apply Z.div_le_lower_bound; [lia | nia]. }
  assert (Hhi1 : M / 2 ^ K < (E + 1) * D1).
  { apply Z.div_lt_upper_bound; [lia | nia]. }
  (* so does the second *)
  assert (Hm1n : m1 < 2 ^ 53 * D1) by nia.
  assert (H53' : 2 ^ 53 * D1 = 2 ^ (53 - e - K)).
  { unfold D1. rewrite <- Z.pow_add_r by lia. f_equal; lia. }
  assert (Hm10 : 0 <= m1).
  { assert (0 <= M / 2 ^ K) by (apply Z.div_pos; lia). lia. }
  assert (Hdm1 : Zdigits2 m1 <= 53 - e - K).
  { apply Zdigits2_le; [lia | ]. split; [lia | ]. rewrite <- H53'. lia. }
  assert (HK2 : 0 <= K2 <= - e - K).
  { unfold K2, fexp, SpecFloat.emin, prec, emax.
    pose proof (Zdigits2_nonneg m1). lia. }
  clearbody K2.
  set (D2 := 2 ^ (- e - K - K2)).
  assert (HD2 : D1 = 2 ^ K2 * D2).
  { unfold D1, D2. rewrite <- Z.pow_add_r by lia. f_equal; lia. }
  assert (HpK2 : 0 < 2 ^ K2) by (apply Z.pow_pos_nonneg; lia).
  assert (HpD2 : 0 < D2) by (unfold D2; apply Z.pow_pos_nonneg; lia).
  replace (- (e + K + K2)) with (- e - K - K2) by lia. fold D2.
  clearbody D2 D1 e.
  split; [lia | split ].
  - apply Z.div_le_lower_bound; [lia | nia].
  - apply Z.div_le_upper_bound; [lia | nia].
Qed.

(** ** The index expression is in range

    For every number [r] that [Math.random()] can return and every array
    length [n] with [0 < n < 2^53], the number
    [Math.floor(r * n)] is an integer [i] with [0 <= i < n]. *)
Lemma floor_mul_in_range (r : Number) (n : Z) :
  in_unit_interval r = true ->
  0 < n < 2 ^ 53 ->
  exists i : Z, to_integer (floor (mul r (of_Z n))) = Some i /\ 0 <= i < n.
Proof.
  intros Hr Hn.
  destruct (of_Z_pos n Hn) as (my & ey & Eof & Hey & Hmy).
  rewrite Eof.
  destruct r as [ s | s | | s mx ex ]; try discriminate Hr.
  - (* r = +0 *)
    exists 0. cbn. split; [reflexivity | lia].
  - apply in_unit_interval_finite in Hr. destruct Hr as (-> & Hex & Hmx).
    unfold mul, SFmul. cbn [xorb]. rewrite binary_round_aux_pair.
    pose proof (round_pair_product_lt mx my ex ey Hex Hmx ltac:(lia)) as Hb.
    destruct (round_pair (Z.pos (mx * my)) (ex + ey)) as [m2 e2].
    destruct Hb as (Hm2 & He2 & Hb).
    rewrite Hmy in Hb.
    assert (Hlt : m2 * 2 ^ (e2 - (ex + ey)) < n * 2 ^ (- (ex + ey))).
    { replace (- (ex + ey)) with (- ey + - ex) by lia.
      rewrite Z.pow_add_r by lia. lia. }
    clear Hb.
    destruct m2 as [ | p | p ]; [ | | lia ].
    + exists 0. cbn. split; [reflexivity | lia].
    + assert (He : 0 < 2 ^ (- (ex + ey))) by (apply Z.pow_pos_nonneg; lia).
      destruct (Z_le_gt_dec 0 e2) as [Hpos | Hneg].
      * (* the rounded product is already integral *)
        assert (Hv : Z.pos p * 2 ^ e2 < n).
        { replace (e2 - (ex + ey)) with (e2 + - (ex + ey)) in Hlt by lia.
          rewrite Z.pow_add_r in Hlt by lia. nia. }
        assert (He2' : 0 < 2 ^ e2) by (apply Z.pow_pos_nonneg; lia).
        destruct (e2 <=? emax - prec) eqn:Efin.
        -- exists (Z.pos p * 2 ^ e2).
           cbn [floor to_integer cond_Zopp].
           replace (0 <=? e2) with true by (symmetry; apply Z.leb_le; lia).
           cbn [to_integer cond_Zopp].
           replace (0 <=? e2) with true by (symmetry; apply Z.leb_le; lia).
           split; [reflexivity | nia].
        -- exfalso. apply Z.leb_gt in Efin. unfold emax, prec in Efin.
           assert (2 ^ 53 <= 2 ^ e2) by (apply Z.pow_le_mono_r; lia).
           nia.
      * (* the fraction bits are dropped *)
        assert (He2' : 0 < 2 ^ (- e2)) by (apply Z.pow_pos_nonneg; lia).
        assert (Hv : Z.pos p < n * 2 ^ (- e2)).
        { replace (- (ex + ey)) with ((e2 - (ex + ey)) + - e2) in Hlt by lia.
          rewrite Z.pow_add_r in Hlt by lia.
          assert (0 < 2 ^ (e2 - (ex + ey))) by (apply Z.pow_pos_nonneg; lia).
          nia. }
        replace (e2 <=? emax - prec) with true
          by (symmetry; apply Z.leb_le; unfold emax, prec; lia).
        exists (Z.pos p / 2 ^ (- e2)).
        assert (Hq : 0 <= Z.pos p / 2 ^ (- e2) < n).
        { split; [apply Z.div_pos; lia | ].
          apply Z.div_lt_upper_bound; [lia | ]. rewrite Z.mul_comm. exact Hv. }
        cbn [floor].
        replace (0 <=? e2) with false by (symmetry; apply Z.leb_gt; lia).
        cbn zeta. fold (of_Z (Z.pos p / 2 ^ (- e2))).
        rewrite to_integer_of_Z by lia. split; [reflexivity | exact Hq].
Qed.

Lemma exact_index_finite (n : nat) (mx : positive) (ex : Z) :
  ex < 0 ->
  exact_index n (to_Q (S754_finite false mx ex)) = (Z.pos mx * Z.of_nat n) / 2 ^ (- ex).
Proof.
  intro Hex. unfold exact_index, to_Q.
  replace (0 <=? ex) with false by (symmetry; apply Z.leb_gt; lia).
  cbn [cond_Zopp Qmult inject_Z Qfloor Qnum Qden].
  rewrite Pos.mul_1_r, Z2Pos.id by (apply Z.pow_pos_nonneg; lia).
  reflexivity.
Qed.

(** ** The computed index against the exact one

    The index that the handler computes in binary64 is the index of exact
    arithmetic, or the next one when the product is rounded up to an
    integer. *)
Lemma floor_mul_near_exact (r : Number) (n : nat) :
  in_unit_interval r = true ->
  0 < Z.of_nat n < 2 ^ 53 ->
  exists i : Z,
    to_integer (floor (mul r (of_Z (Z.of_nat n)))) = Some i /\
    exact_index n (to_Q r) <= i <= exact_index n (to_Q r) + 1.
Proof.
  intros Hr Hn.
  destruct (of_Z_pos _ Hn) as (my & ey & Eof & Hey & Hmy).
  rewrite Eof.
  destruct r as [ s | s | | s mx ex ]; try discriminate Hr.
  - exists 0. split; [reflexivity | ].
    unfold exact_index, to_Q. rewrite Qmult_0_l. cbn. lia.
  - apply in_unit_interval_finite in Hr. destruct Hr as (-> & Hex & Hmx).
    rewrite exact_index_finite by lia.
    unfold mul, SFmul. cbn [xorb]. rewrite binary_round_aux_pair.
    pose proof (round_pair_product_near mx my ex ey (Z.of_nat n)
                  Hex Hmx ltac:(lia) Hmy Hn) as Hb.
    cbn zeta in Hb.
    pose proof (round_pair_product_lt mx my ex ey Hex Hmx ltac:(lia)) as Hp.
    destruct (round_pair (Z.pos (mx * my)) (ex + ey)) as [m2 e2].
    destruct Hb as (He2 & Hlo & Hhi). destruct Hp as (Hm2 & _ & _).
    set (E := Z.pos mx * Z.of_nat n / 2 ^ (- ex)) in *.
    assert (HE : 0 <= E < Z.of_nat n).
    { assert (0 < 2 ^ (- ex)) by (apply Z.pow_pos_nonneg; lia).
      assert (Z.pos mx < 2 ^ (- ex)).
      { assert (2 ^ 53 <= 2 ^ (- ex)) by (apply Z.pow_le_mono_r; lia). lia. }
      split; [apply Z.div_pos; lia | ].
      apply Z.div_lt_upper_bound; [lia | nia]. }
    clearbody E.
    assert (Hp2 : 0 < 2 ^ (- e2)) by (apply Z.pow_pos_nonneg; lia).
    destruct m2 as [ | p | p ]; [ | | lia ].
    + exists 0. split; [reflexivity | nia].
    + replace (e2 <=? emax - prec) with true
        by (symmetry; apply Z.leb_le; unfold emax, prec; lia).
      destruct (Z.eq_dec e2 0) as [-> | Hne].
      * exists (Z.pos p). cbn in Hlo, Hhi. split; [ | lia].
        cbn. f_equal. lia.
      * exists (Z.pos p / 2 ^ (- e2)).
        assert (Hq : E <= Z.pos p / 2 ^ (- e2) <= E + 1).
        { split.
          - apply Z.div_le_lower_bound; [lia | nia].
          - apply Z.div_le_upper_bound; [lia | nia]. }
        split; [ | exact Hq].
        cbn [floor].
        replace (0 <=? e2) with false by (symmetry; apply Z.leb_gt; lia).
        cbn zeta. fold (of_Z (Z.pos p / 2 ^ (- e2))).
        apply to_integer_of_Z. lia.
Qed.

End NumberFacts.

(** ** The server function *)

Section Handler.

Variables (env : Env) (st : State).

Let r := random_source env (draws st).
Let x := floor (mul r (array_length (songs_array st))).

(** With a store that answers, the body runs to its [return]. *)
Lemma handler_resolved (ctx : ServerFnCtx) (rows : list Row) :
  db_answer env "SELECT 1" = Resolved rows ->
  handler ctx env st =
    (Normal (array_get (songs_array st) x),
     mkState (songs_array st) (S (draws st))
       (((trace st ++ [EvQuery "SELECT 1"]) ++ [EvRandom r]) ++ [EvElement x])).
Proof.
  intro H. unfold handler, Eff.bind, Eff.db_execute. rewrite H.
  reflexivity.
Qed.

(** With a store that fails, the body stops at the [await]. *)
Lemma handler_rejected (ctx : ServerFnCtx) (err : JsError) :
  db_answer env "SELECT 1" = Rejected err ->
  handler ctx env st = (Throw err, log (EvQuery "SELECT 1") st).
Proof.
  intro H. unfold handler, Eff.bind, Eff.db_execute. rewrite H.
  reflexivity.
Qed.

(** The server function is the handler called with the context built by
    [authMiddleware]. *)
Lemma getRandomSong_unfold (payload : string) :
  getRandomSong payload env st =
  handler (mkCtx payload [("user"%string, 1)]) env st.
Proof. reflexivity. Qed.

End Handler.

Lemma array_get_in_range (a : list SongRecord) (x : Number) (i : Z) :
  to_integer x = Some i ->
  0 <= i < Z.of_nat (List.length a) ->
  exists s, array_get a x = VSong s /\ nth_error a (Z.to_nat i) = Some s /\ In s a.
Proof.
  intros Hx Hi. unfold array_get. rewrite Hx.
  replace (0 <=? i) with true by (symmetry; apply Z.leb_le; lia).
  destruct (nth_error a (Z.to_nat i)) as [s | ] eqn:E.
  - exists s. repeat split. eapply nth_error_In; eassumption.
  - apply nth_error_None in E. lia.
Qed.

Lemma array_get_empty (x : Number) : array_get [] x = VUndefined.
Proof.
  unfold array_get. destruct (to_integer x) as [i | ]; [ | reflexivity].
  destruct (0 <=? i); [ | reflexivity].
  destruct (Z.to_nat i); reflexivity.
Qed.

Lemma max_array_length_lt : max_array_length < 2 ^ 53.
Proof. unfold max_array_length. lia. Qed.

(** The index computed by the handler, for a non-empty array. *)
Lemma index_in_range (a : list SongRecord) (r : Number) :
  in_unit_interval r = true ->
  a <> [] ->
  Z.of_nat (List.length a) <= max_array_length ->
  exists i, to_integer (floor (mul r (array_length a))) = Some i /\
            0 <= i < Z.of_nat (List.length a).
Proof.
  intros Hr Ha Hlen. unfold array_length.
  apply NumberFacts.floor_mul_in_range; [assumption | ].
  pose proof max_array_length_lt.
  destruct a; [congruence | cbn [List.length] in *; lia].
Qed.

(** ** Evaluation on concrete inputs *)

Example floor_three_halves :
  floor (S754_finite false 3 (-1)) = of_Z 1.
Proof. vm_compute. reflexivity. Qed.

Example floor_minus_one_half :
  floor (S754_finite true 1 (-1)) = of_Z (-1).
Proof. vm_compute. reflexivity. Qed.

Example floor_one_half : floor one_half = pos_zero.
Proof. vm_compute. reflexivity. Qed.

Example product_below_seven :
  mul below_one (of_Z 7) = S754_finite false 7881299347898367 (-50).
Proof. vm_compute. reflexivity. Qed.

Example array_get_not_integral :
  array_get songs (S754_finite false 3 (-1)) = VUndefined.
Proof. vm_compute. reflexivity. Qed.

Example run_one_half :
  fst (getRandomSong "{}" (healthy_env one_half) initial_state)
  = Normal (VSong (mkSong 4 "My Own Worst Enemy" "Lit")).
Proof. vm_compute. reflexivity. Qed.

Example run_below_one :
  fst (getRandomSong "{}" (healthy_env below_one) initial_state)
  = Normal (VSong (mkSong 7 "Beverly Hills" "Weezer")).
Proof. vm_compute. reflexivity. Qed.

Example run_zero :
  fst (getRandomSong "{}" (healthy_env pos_zero) initial_state)
  = Normal (VSong (mkSong 1 "Teenage Dirtbag" "Wheatus")).
Proof. vm_compute. reflexivity. Qed.

Example run_failing :
  getRandomSong "{}" (failing_env one_half) initial_state
  = (Throw (mkError "unable to open database file"),
     mkState songs 0 [EvQuery "SELECT 1"]).
Proof. vm_compute. reflexivity. Qed.

Example run_trace :
  trace (snd (getRandomSong "{}" (healthy_env one_half) initial_state))
  = [EvQuery "SELECT 1"; EvRandom one_half; EvElement (of_Z 3)].
Proof. vm_compute. reflexivity. Qed.

(** ** Membership of the returned record *)

Lemma resolved_returns_element
    (payload : string) (env : Env) (st : State) (rows : list Row) :
  db_answer env "SELECT 1" = Resolved rows ->
  in_unit_interval (random_source env (draws st)) = true ->
  songs_array st <> [] ->
  Z.of_nat (List.length (songs_array st)) <= max_array_length ->
  exists s : SongRecord,
    fst (getRandomSong payload env st) = Normal (VSong s) /\
    In s (songs_array st).
Proof.
  intros Hdb Hr Hne Hlen.
  rewrite getRandomSong_unfold, (handler_resolved _ _ _ rows Hdb). cbn [fst].
  destruct (index_in_range _ _ Hr Hne Hlen) as (i & Hi & Hrange).
  destruct (array_get_in_range _ _ _ Hi Hrange) as (s & Hget & _ & Hin).
  exists s. split; [rewrite Hget; reflexivity | assumption].
Qed.

(** C1. For every result [r] of the random source with [0 <= r < 1], when
    the liveness query succeeds and the array bound to [songs] is not
    empty, [$getRandomSong] resolves with a record that is an element of
    that array; in particular its [id] is among the ids of the array. *)
Theorem getRandomSong_returns_member
    (payload : string) (env : Env) (st : State) (rows : list Row) :
  db_answer env "SELECT 1" = Resolved rows ->
  in_unit_interval (random_source env (draws st)) = true ->
  songs_array st <> [] ->
  Z.of_nat (List.length (songs_array st)) <= max_array_length ->
  exists s : SongRecord,
    fst (getRandomSong payload env st) = Normal (VSong s) /\
    In s (songs_array st) /\
    In (id s) (ids (songs_array st)).
Proof.
  intros Hdb Hr Hne Hlen.
  destruct (resolved_returns_element payload env st rows Hdb Hr Hne Hlen)
    as (s & Hres & Hin).
  exists s. repeat split; try assumption.
  unfold ids. apply in_map. assumption.
Qed.

Lemma getRandomSong_returns_member_witness :
  exists s : SongRecord,
    fst (getRandomSong "{}" (healthy_env below_one) initial_state) = Normal (VSong s) /\
    In s songs /\ In (id s) (ids songs).
Proof.
  apply (getRandomSong_returns_member "{}" (healthy_env below_one) initial_state
           [[("1"%string, 1)]]).
  - reflexivity.
  - vm_compute. reflexivity.
  - discriminate.
  - vm_compute. discriminate.
Defined.

(** ** An empty array *)

(** C2, as the code behaves.  When the array bound to [songs] has no
    element, [$getRandomSong] never resolves with a record: if the
    liveness query succeeds it resolves with [undefined], without
    signalling any error, and if the query fails it is rejected with the
    error of the query. *)
Theorem empty_catalog_returns_undefined
    (payload : string) (env : Env) (st : State) :
  songs_array st = [] ->
  (forall rows, db_answer env "SELECT 1" = Resolved rows ->
     fst (getRandomSong payload env st) = Normal VUndefined) /\
  (forall err, db_answer env "SELECT 1" = Rejected err ->
     fst (getRandomSong payload env st) = Throw err) /\
  (forall s, fst (getRandomSong payload env st) <> Normal (VSong s)).
Proof.
  intro Hempty. rewrite getRandomSong_unfold.
  split; [ | split ].
  - intros rows Hdb. rewrite (handler_resolved _ _ _ rows Hdb). cbn [fst].
    rewrite Hempty, array_get_empty. reflexivity.
  - intros err Hdb. rewrite (handler_rejected _ _ _ err Hdb). reflexivity.
  - intro s. destruct (db_answer env "SELECT 1") as [rows | err] eqn:Hdb.
    + rewrite (handler_resolved _ _ _ rows Hdb). cbn [fst].
      rewrite Hempty, array_get_empty. discriminate.
    + rewrite (handler_rejected _ _ _ err Hdb). discriminate.
Qed.

Lemma empty_catalog_returns_undefined_witness :
  (forall rows, db_answer (healthy_env one_half) "SELECT 1" = Resolved rows ->
     fst (getRandomSong "{}" (healthy_env one_half) empty_state) = Normal VUndefined) /\
  (forall err, db_answer (healthy_env one_half) "SELECT 1" = Rejected err ->
     fst (getRandomSong "{}" (healthy_env one_half) empty_state) = Throw err) /\
  (forall s, fst (getRandomSong "{}" (healthy_env one_half) empty_state)
             <> Normal (VSong s)).
Proof.
  apply (empty_catalog_returns_undefined "{}" (healthy_env one_half) empty_state).
  reflexivity.
Defined.

(** With an empty array and a store that answers, the call resolves with
    [undefined]: no error is signalled. *)
Lemma empty_catalog_signals_no_error :
  songs_array empty_state = [] /\
  fst (getRandomSong "{}" (healthy_env one_half) empty_state) = Normal VUndefined /\
  ~ (exists e : JsError,
       fst (getRandomSong "{}" (healthy_env one_half) empty_state) = Throw e).
Proof.
  split; [reflexivity | ]. split; [vm_compute; reflexivity | ].
  intros [e He]. vm_compute in He. discriminate He.
Qed.

(** ** A failing liveness query *)

(** C3. When the liveness query fails, [$getRandomSong] resolves with no
    value: it is rejected with exactly the error of the query, and it stops
    before [Math.random()] is called and before any element of the array is
    read (the only action performed is the query). *)
Theorem liveness_failure_propagates
    (payload : string) (env : Env) (st : State) (err : JsError) :
  db_answer env "SELECT 1" = Rejected err ->
  fst (getRandomSong payload env st) = Throw err /\
  (forall v, fst (getRandomSong payload env st) <> Normal v) /\
  draws (snd (getRandomSong payload env st)) = draws st /\
  trace (snd (getRandomSong payload env st)) = trace st ++ [EvQuery "SELECT 1"] /\
  songs_array (snd (getRandomSong payload env st)) = songs_array st.
Proof.
  intro Hdb. rewrite getRandomSong_unfold, (handler_rejected _ _ _ err Hdb).
  cbn. repeat split. intros v Hv. discriminate Hv.
Qed.

Lemma liveness_failure_propagates_witness :
  let res := getRandomSong "{}" (failing_env one_half) initial_state in
  fst res = Throw (mkError "unable to open database file") /\
  (forall v, fst res <> Normal v) /\
  draws (snd res) = draws initial_state /\
  trace (snd res) = trace initial_state ++ [EvQuery "SELECT 1"] /\
  songs_array (snd res) = songs_array initial_state.
Proof.
  apply (liveness_failure_propagates "{}" (failing_env one_half) initial_state).
  reflexivity.
Defined.

(** ** The indexed access *)

(** C5. The access to the array in [$getRandomSong] is in bounds: for every
    result [r] of the random source with [0 <= r < 1], up to the largest
    number below one, the number [Math.floor(r * songs.length)] used as the
    index is an integer [i] with [0 <= i < songs.length], and the access
    finds an element. *)
Theorem catalog_access_in_bounds
    (payload : string) (env : Env) (st : State) (rows : list Row) :
  db_answer env "SELECT 1" = Resolved rows ->
  in_unit_interval (random_source env (draws st)) = true ->
  songs_array st <> [] ->
  Z.of_nat (List.length (songs_array st)) <= max_array_length ->
  let r := random_source env (draws st) in
  let x := floor (mul r (array_length (songs_array st))) in
  trace (snd (getRandomSong payload env st))
    = trace st ++ [EvQuery "SELECT 1"; EvRandom r; EvElement x] /\
  exists i : Z,
    to_integer x = Some i /\
    0 <= i < Z.of_nat (List.length (songs_array st)) /\
    nth_error (songs_array st) (Z.to_nat i) <> None.
Proof.
  intros Hdb Hr Hne Hlen r x.
  rewrite getRandomSong_unfold, (handler_resolved _ _ _ rows Hdb). cbn [snd trace].
  split; [rewrite <- !app_assoc; reflexivity | ].
  destruct (index_in_range _ _ Hr Hne Hlen) as (i & Hi & Hrange).
  exists i. split; [exact Hi | split; [exact Hrange | ] ].
  apply nth_error_Some. lia.
Qed.

Lemma catalog_access_in_bounds_witness :
  let x := floor (mul below_one (array_length songs)) in
  trace (snd (getRandomSong "{}" (healthy_env below_one) initial_state))
    = [] ++ [EvQuery "SELECT 1"; EvRandom below_one; EvElement x] /\
  exists i : Z,
    to_integer x = Some i /\ 0 <= i < 7 /\ nth_error songs (Z.to_nat i) <> None.
Proof.
  apply (catalog_access_in_bounds "{}" (healthy_env below_one) initial_state
           [[("1"%string, 1)]]).
  - reflexivity.
  - vm_compute. reflexivity.
  - discriminate.
  - vm_compute. discriminate.
Defined.

(** At the upper end of the range of the random source the index is the
    last one. *)
Example index_at_upper_boundary :
  in_unit_interval below_one = true /\
  to_integer (floor (mul below_one (array_length songs))) = Some 6.
Proof. split; vm_compute; reflexivity. Qed.

(** ** The array is only read *)

Lemma getRandomSong_preserves_songs (payload : string) (env : Env) (st : State) :
  songs_array (snd (getRandomSong payload env st)) = songs_array st.
Proof.
  rewrite getRandomSong_unfold.
  destruct (db_answer env "SELECT 1") as [rows | err] eqn:Hdb.
  - rewrite (handler_resolved _ _ _ rows Hdb). reflexivity.
  - rewrite (handler_rejected _ _ _ err Hdb). reflexivity.
Qed.

(** C7. No call of [$getRandomSong], resolved or rejected, changes the
    array bound to [songs]; and reading the array twice in a row yields
    the same elements in the same order, and leaves the state as it was. *)
Theorem catalog_never_mutated :
  (forall (payload : string) (env : Env) (st : State),
     songs_array (snd (getRandomSong payload env st)) = songs_array st) /\
  (forall (env : Env) (st : State),
     read_songs_twice env st = (Normal (songs_array st, songs_array st), st)).
Proof.
  split.
  - apply getRandomSong_preserves_songs.
  - intros env st. reflexivity.
Qed.

(** ** The two-song scenario *)

(** C8. With the array [[{1, "Teenage Dirtbag", "Wheatus"},
    {2, "Smells Like Teen Spirit", "Nirvana"}]] and a liveness query that
    succeeds, a call resolves with the record of id 1 or the record of
    id 2: never another id, never an error. *)
Theorem two_songs_scenario
    (payload : string) (env : Env) (st : State) (rows : list Row) :
  songs_array st = two_songs ->
  db_answer env "SELECT 1" = Resolved rows ->
  in_unit_interval (random_source env (draws st)) = true ->
  (exists s : SongRecord,
     fst (getRandomSong payload env st) = Normal (VSong s) /\
     In s two_songs /\ (id s = 1 \/ id s = 2)) /\
  (forall e : JsError, fst (getRandomSong payload env st) <> Throw e).
Proof.
  intros Hsongs Hdb Hr.
  assert (Hne : songs_array st <> []) by (rewrite Hsongs; discriminate).
  assert (Hlen : Z.of_nat (List.length (songs_array st)) <= max_array_length).
  { rewrite Hsongs. vm_compute. discriminate. }
  destruct (resolved_returns_element payload env st rows Hdb Hr Hne Hlen)
    as (s & Hres & Hin).
  rewrite Hsongs in Hin. split.
  - exists s. split; [assumption | split; [assumption | ] ].
    destruct Hin as [<- | [<- | []]]; cbn; auto.
  - intros e He. rewrite Hres in He. discriminate He.
Qed.

Lemma two_songs_scenario_witness :
  (exists s : SongRecord,
     fst (getRandomSong "{}" (healthy_env below_one) two_songs_state)
       = Normal (VSong s) /\
     In s two_songs /\ (id s = 1 \/ id s = 2)) /\
  (forall e : JsError,
     fst (getRandomSong "{}" (healthy_env below_one) two_songs_state) <> Throw e).
Proof.
  apply (two_songs_scenario "{}" (healthy_env below_one) two_songs_state
           [[("1"%string, 1)]]).
  - reflexivity.
  - reflexivity.
  - vm_compute. reflexivity.
Defined.

Example two_songs_below_one :
  fst (getRandomSong "{}" (healthy_env below_one) two_songs_state)
  = Normal (VSong (mkSong 2 "Smells Like Teen Spirit" "Nirvana")).
Proof. vm_compute. reflexivity. Qed.

(** ** What the result depends on *)

(** With stores that answer, the value a call resolves with is determined
    by the array and the random draw alone. *)
Lemma resolved_result_determined
    (payload1 payload2 : string) (env1 env2 : Env) (st1 st2 : State)
    (rows1 rows2 : list Row) :
  db_answer env1 "SELECT 1" = Resolved rows1 ->
  db_answer env2 "SELECT 1" = Resolved rows2 ->
  songs_array st1 = songs_array st2 ->
  random_source env1 (draws st1) = random_source env2 (draws st2) ->
  fst (getRandomSong payload1 env1 st1) = fst (getRandomSong payload2 env2 st2).
Proof.
  intros Hdb1 Hdb2 Hsongs Hrand.
  rewrite !getRandomSong_unfold.
  rewrite (handler_resolved _ _ _ rows1 Hdb1), (handler_resolved _ _ _ rows2 Hdb2).
  cbn [fst]. rewrite Hsongs, Hrand. reflexivity.
Qed.

(** C9. The rows returned by the liveness query are discarded: two calls
    in the same state whose stores answer with different rows, and whose
    random draw is the same, resolve with the same value. *)
Theorem liveness_result_discarded
    (payload : string) (env1 env2 : Env) (st : State) (rows1 rows2 : list Row) :
  db_answer env1 "SELECT 1" = Resolved rows1 ->
  db_answer env2 "SELECT 1" = Resolved rows2 ->
  rows1 <> rows2 ->
  random_source env1 (draws st) = random_source env2 (draws st) ->
  fst (getRandomSong payload env1 st) = fst (getRandomSong payload env2 st).
Proof.
  intros Hdb1 Hdb2 _ Hrand.
  apply (resolved_result_determined _ _ _ _ _ _ rows1 rows2); auto.
Qed.

Lemma liveness_result_discarded_witness :
  fst (getRandomSong "{}" (healthy_env one_half) initial_state)
  = fst (getRandomSong "{}"
           (mkEnv (fun _ => Resolved []) (fun _ => one_half)) initial_state).
Proof.
  apply (liveness_result_discarded "{}" (healthy_env one_half)
           (mkEnv (fun _ => Resolved []) (fun _ => one_half)) initial_state
           [[("1"%string, 1)]] []).
  - reflexivity.
  - reflexivity.
  - discriminate.
  - reflexivity.
Defined.

(** C10. [authMiddleware] passes the constant context [{ user: 1 }] to
    [next] for every request, so any handler behind it is called with
    [user = 1]; the handler of [$getRandomSong] does not read what it is
    called with; and two calls with stores that answer, the same array and
    equal random draws resolve with the same value whatever the payloads
    of the requests are. *)
Theorem identity_ignored
    (payload1 payload2 : string) (env1 env2 : Env) (st1 st2 : State)
    (rows1 rows2 : list Row) :
  db_answer env1 "SELECT 1" = Resolved rows1 ->
  db_answer env2 "SELECT 1" = Resolved rows2 ->
  songs_array st1 = songs_array st2 ->
  random_source env1 (draws st1) = random_source env2 (draws st2) ->
  (forall (ctx : ServerFnCtx) (next : Context -> Eff.t JsValue),
     authMiddleware ctx next = next [("user"%string, 1)]) /\
  (forall (h : ServerFnCtx -> Eff.t JsValue) (ctx : ServerFnCtx),
     run_chain [authMiddleware] h ctx
       = h (mkCtx (data ctx) (("user"%string, 1) :: context ctx)) /\
     lookup "user" (("user"%string, 1) :: context ctx) = Some 1) /\
  (forall ctx1 ctx2 : ServerFnCtx, handler ctx1 = handler ctx2) /\
  fst (getRandomSong payload1 env1 st1) = fst (getRandomSong payload2 env2 st2).
Proof.
  intros Hdb1 Hdb2 Hsongs Hrand.
  split; [reflexivity | ].
  split; [intros h ctx; split; reflexivity | ].
  split; [reflexivity | ].
  apply (resolved_result_determined _ _ _ _ _ _ rows1 rows2); assumption.
Qed.

Lemma identity_ignored_witness :
  fst (getRandomSong "{}" (healthy_env one_half) initial_state)
  = fst (getRandomSong "{ user: 2 }"
           (mkEnv (fun _ => Resolved []) (fun _ => one_half))
           (mkState songs 0 [EvQuery "SELECT 1"])).
Proof.
  apply (identity_ignored "{}" "{ user: 2 }" (healthy_env one_half)
           (mkEnv (fun _ => Resolved []) (fun _ => one_half))
           initial_state (mkState songs 0 [EvQuery "SELECT 1"])
           [[("1"%string, 1)]] []); reflexivity.
Defined.

(** ** The invariant of the array *)

Lemma songs_ok : catalog_ok songs.
Proof.
  split.
  - cbn. lia.
  - repeat constructor.
  - unfold ids. cbn.
    repeat (constructor; [cbn; intuition discriminate | ]). constructor.
  - repeat (constructor; [cbn; split; discriminate | ]). constructor.
Qed.

Lemma reachable_songs (st : State) : reachable st -> songs_array st = songs.
Proof.
  induction 1 as [ | st payload env Hreach IH ].
  - reflexivity.
  - rewrite getRandomSong_preserves_songs. exact IH.
Qed.

(** C6. The array bound to [songs] satisfies the invariants of the data
    model when it is built and in every state reached by calls of the
    server function: it has at least one element, every [id] is a positive
    integer, the ids are pairwise distinct, and every [name] and [artist]
    is a non-empty text. *)
Theorem catalog_invariant (st : State) :
  reachable st -> catalog_ok (songs_array st).
Proof.
  intro Hreach. rewrite (reachable_songs st Hreach). exact songs_ok.
Qed.

Lemma catalog_invariant_witness :
  catalog_ok
    (songs_array (snd (getRandomSong "{}" (failing_env one_half)
                         (snd (getRandomSong "{}" (healthy_env below_one)
                                 initial_state))))).
Proof.
  apply catalog_invariant.
  apply reach_call. apply reach_call. apply reach_init.
Defined.

(** ** The index over exact arithmetic *)

Lemma exact_index_spec (n : positive) (r : Q) (i : Z) :
  exact_index (Pos.to_nat n) r = i <->
  (i # n <= r /\ r < (i + 1) # n)%Q.
Proof.
  destruct r as [p q]. unfold exact_index, Qle, Qlt.
  rewrite positive_nat_Z. cbn [Qmult inject_Z Qfloor Qnum Qden].
  rewrite Pos.mul_1_r, NumberFacts.Zdiv_eq_iff by lia. lia.
Qed.

(** Over exact real arithmetic the index is drawn uniformly: for every
    index [i] with [0 <= i < 7], the reals [r] of [[0, 1)] with
    [floor (r * 7) = i] are exactly those of the interval
    [[i/7, (i+1)/7)], which lies inside [[0, 1]] and has length [1/7]; so
    each of the seven entries of [songs] receives an equal share of the
    random source. *)
Theorem exact_index_uniform (i : Z) :
  0 <= i < 7 ->
  (0 <= i # 7 /\ (i + 1) # 7 <= 1 /\ ((i + 1) # 7) - (i # 7) == 1 # 7)%Q /\
  forall r : Q, (0 <= r /\ r < 1)%Q ->
    (exact_index (List.length songs) r = i <-> (i # 7 <= r /\ r < (i + 1) # 7)%Q).
Proof.
  intro Hi. split.
  - unfold Qle, Qeq, Qminus, Qplus, Qopp. cbn. lia.
  - intros r _. apply (exact_index_spec 7 r i).
Qed.

Lemma exact_index_uniform_witness :
  (0 <= 3 # 7 /\ (3 + 1) # 7 <= 1 /\ ((3 + 1) # 7) - (3 # 7) == 1 # 7)%Q /\
  forall r : Q, (0 <= r /\ r < 1)%Q ->
    (exact_index (List.length songs) r = 3 <-> (3 # 7 <= r /\ r < (3 + 1) # 7)%Q).
Proof.
  apply (exact_index_uniform 3). lia.
Defined.

Example exact_index_one_half : exact_index (List.length songs) (1 # 2) = 3.
Proof. reflexivity. Qed.

(** The edge of the first interval under binary64 rounding: the largest
    number below [1/7] belongs to the interval of index [0], and its
    product with [7] is rounded to [1], so the handler picks index [1]. *)
Example index_below_one_seventh :
  in_unit_interval below_one_seventh = true /\
  exact_index (List.length songs) (to_Q below_one_seventh) = 0 /\
  to_integer (floor (mul below_one_seventh (array_length songs))) = Some 1.
Proof. repeat split; vm_compute; reflexivity. Qed.

(** ** Detection of server functions *)

Module DetectFacts.

Import Detect.

Lemma matches_seq_inv (r1 r2 : regex) (s : list CodeUnit) :
  matches (Seq r1 r2) s ->
  exists s1 s2, s = s1 ++ s2 /\ matches r1 s1 /\ matches r2 s2.
Proof. intro H. inversion H; subst. eauto. Qed.

Lemma matches_alt_inv (r1 r2 : regex) (s : list CodeUnit) :
  matches (Alt r1 r2) s -> matches r1 s \/ matches r2 s.
Proof. intro H. inversion H; subst; auto. Qed.

Lemma nullable_spec (r : regex) : nullable r = true <-> matches r [].
Proof.
  induction r as [ | | c | | r1 IH1 r2 IH2 | r1 IH1 r2 IH2 | r IH ]; cbn [nullable].
  - split; [discriminate | intro H; inversion H].
  - split; [constructor | reflexivity].
  - split; [discriminate | intro H; inversion H].
  - split; [discriminate | intro H; inversion H].
  - rewrite andb_true_iff, IH1, IH2. split.
    + intros [H1 H2]. exact (m_seq r1 r2 [] [] H1 H2).
    + intro H. apply matches_seq_inv in H. destruct H as (s1 & s2 & E & H1 & H2).
      symmetry in E. apply app_eq_nil in E. destruct E; subst. split; assumption.
  - rewrite orb_true_iff, IH1, IH2. split.
    + intros [H | H]; [apply m_alt_l | apply m_alt_r]; assumption.
    + apply matches_alt_inv.
  - split; [constructor | reflexivity].
Qed.

(** A non-empty match of [r*] starts with a non-empty match of [r]. *)
Lemma matches_star_cons_inv (r : regex) (c : CodeUnit) (s : list CodeUnit) :
  matches (Star r) (c :: s) ->
  exists s1 s2, s = s1 ++ s2 /\ matches r (c :: s1) /\ matches (Star r) s2.
Proof.
  intro H. remember (Star r) as r' eqn:Er. remember (c :: s) as t eqn:Et.
  revert s Et.
  induction H as [ | c0 | c0 Hc | r1 r2 s1 s2 H1 IH1 H2 IH2
                 | r1 r2 s0 H0 IH0 | r1 r2 s0 H0 IH0
                 | r0 | r0 s1 s2 H1 IH1 H2 IH2 ]; intros s Et;
    try discriminate.
  inversion Er; subst r0. destruct s1 as [ | c1 s1 ].
  - cbn in Et. apply IH2; auto.
  - cbn in Et. inversion Et; subst. exists s1, s2. auto.
Qed.

Lemma deriv_spec (r : regex) (c : CodeUnit) (s : list CodeUnit) :
  matches (deriv c r) s <-> matches r (c :: s).
Proof.
  revert s.
  induction r as [ | | c' | | r1 IH1 r2 IH2 | r1 IH1 r2 IH2 | r IH ];
    intro s; cbn [deriv].
  - split; intro H; inversion H.
  - split; intro H; inversion H.
  - destruct (N.eqb_spec c c') as [-> | Hne]; split; intro H; inversion H; subst.
    + constructor.
    + constructor.
    + congruence.
  - destruct (is_white_space c) eqn:Ec; split; intro H; inversion H; subst.
    + constructor. assumption.
    + constructor.
    + congruence.
  - assert (Hfwd : matches (Seq (deriv c r1) r2) s ->
                   matches (Seq r1 r2) (c :: s)).
    { intro H. apply matches_seq_inv in H. destruct H as (s1 & s2 & -> & H1 & H2).
      apply IH1 in H1. exact (m_seq r1 r2 (c :: s1) s2 H1 H2). }
    assert (Hbwd : matches (Seq r1 r2) (c :: s) ->
                   matches (Seq (deriv c r1) r2) s \/
                   (matches r1 [] /\ matches (deriv c r2) s)).
    { intro H. apply matches_seq_inv in H. destruct H as (s1 & s2 & E & H1 & H2).
      destruct s1 as [ | c1 s1 ]; cbn in E.
      - subst s2. right. split; [assumption | apply IH2; assumption].
      - inversion E; subst. left. apply m_seq; [apply IH1 | ]; assumption. }
    destruct (nullable r1) eqn:En; split; intro H.
    + apply matches_alt_inv in H. destruct H as [H | H]; [auto | ].
      apply nullable_spec in En. apply IH2 in H.
      exact (m_seq r1 r2 [] (c :: s) En H).
    + destruct (Hbwd H) as [H' | [_ H']]; [apply m_alt_l | apply m_alt_r];
        assumption.
    + auto.
    + destruct (Hbwd H) as [H' | [H' _]]; [assumption | ].
      apply nullable_spec in H'. congruence.
  - split; intro H.
    + apply matches_alt_inv in H.
      destruct H as [H | H]; [apply m_alt_l, IH1 | apply m_alt_r, IH2]; assumption.
    + apply matches_alt_inv in H.
      destruct H as [H | H]; [apply m_alt_l, IH1 | apply m_alt_r, IH2]; assumption.
  - split; intro H.
    + apply matches_seq_inv in H. destruct H as (s1 & s2 & -> & H1 & H2).
      apply IH in H1. exact (m_star_cons r (c :: s1) s2 H1 H2).
    + apply matches_star_cons_inv in H. destruct H as (s1 & s2 & -> & H1 & H2).
      apply m_seq; [apply IH | ]; assumption.
Qed.

Lemma match_prefix_spec (r : regex) (code : list CodeUnit) :
  match_prefix r code = true <->
  exists m post, code = m ++ post /\ matches r m.
Proof.
  revert r. induction code as [ | c rest IH ]; intro r; cbn [match_prefix].
  - rewrite orb_false_r, nullable_spec. split.
    + intro H. exists [], []. auto.
    + intros (m & post & E & H). symmetry in E. apply app_eq_nil in E.
      destruct E; subst. assumption.
  - rewrite orb_true_iff, nullable_spec, IH. split.
    + intros [H | (m & post & -> & H)].
      * exists [], (c :: rest). auto.
      * exists (c :: m), post. split; [reflexivity | apply deriv_spec; assumption].
    + intros (m & post & E & H). destruct m as [ | c' m ].
      * left. assumption.
      * cbn in E. inversion E; subst. right. exists m, post.
        split; [reflexivity | apply deriv_spec; assumption].
Qed.

(** The search is correct: it answers [true] exactly when a part of the
    text matches. *)
Lemma test_spec (r : regex) (code : list CodeUnit) :
  test r code = true <-> detects r code.
Proof.
  unfold detects. induction code as [ | c rest IH ]; cbn [test].
  - rewrite orb_false_r, match_prefix_spec. split.
    + intros (m & post & E & H). exists [], m, post. auto.
    + intros (pre & m & post & E & H). symmetry in E.
      apply app_eq_nil in E. destruct E as [-> E]. cbn in E.
      exists m, post. auto.
  - rewrite orb_true_iff, match_prefix_spec, IH. split.
    + intros [(m & post & E & H) | (pre & m & post & -> & H)].
      * exists [], m, post. auto.
      * exists (c :: pre), m, post. auto.
    + intros (pre & m & post & E & H). destruct pre as [ | c' pre ].
      * left. exists m, post. auto.
      * cbn in E. inversion E; subst. right. exists pre, m, post. auto.
Qed.

Lemma matches_lit_units (l m : list CodeUnit) :
  matches (fold_right (fun c r => Seq (Chr c) r) Eps l) m <-> m = l.
Proof.
  revert m. induction l as [ | c l IH ]; intro m; cbn [fold_right].
  - split; intro H; [inversion H; reflexivity | subst; constructor].
  - split; intro H.
    + apply matches_seq_inv in H. destruct H as (s1 & s2 & -> & H1 & H2).
      inversion H1; subst. apply IH in H2. subst. reflexivity.
    + subst. apply (m_seq (Chr c) _ [c] l); [constructor | apply IH; reflexivity].
Qed.

Lemma matches_lit (s : string) (m : list CodeUnit) :
  matches (lit s) m <-> m = code_units s.
Proof. apply matches_lit_units. Qed.

Lemma matches_star_space (m : list CodeUnit) :
  matches (Star WhiteSpace) m <-> forallb is_white_space m = true.
Proof.
  split.
  - intro H. remember (Star WhiteSpace) as r eqn:Er.
    induction H as [ | c0 | c0 Hc | r1 r2 s1 s2 H1 IH1 H2 IH2
                   | r1 r2 s0 H0 IH0 | r1 r2 s0 H0 IH0
                   | r0 | r0 s1 s2 H1 IH1 H2 IH2 ]; try discriminate.
    + reflexivity.
    + inversion Er; subst. inversion H1; subst. cbn.
      rewrite IH2 by reflexivity. rewrite andb_true_r. assumption.
  - induction m as [ | c m IH ]; cbn; intro H.
    + constructor.
    + apply andb_true_iff in H. destruct H as [Hc Hm].
      apply (m_star_cons WhiteSpace [c] m); [constructor; assumption | auto].
Qed.

Lemma matches_before (m : list CodeUnit) :
  matches ServerFn_before m <->
  exists ws, forallb is_white_space ws = true /\
             m = code_units ".handler" ++ ws ++ code_units "(".
Proof.
  unfold ServerFn_before. split.
  - intro H.
    apply matches_seq_inv in H. destruct H as (s1 & t1 & -> & H1 & H2).
    apply matches_seq_inv in H2. destruct H2 as (s2 & t2 & -> & H3 & H4).
    apply matches_lit in H1, H4. apply matches_star_space in H3. subst.
    exists s2. auto.
  - intros (ws & Hws & ->).
    apply m_seq; [apply matches_lit; reflexivity | ].
    apply m_seq; [apply matches_star_space; assumption | ].
    apply matches_lit; reflexivity.
Qed.

Lemma matches_after (m : list CodeUnit) :
  matches ServerFn_after m <->
  exists ws1 ws2,
    forallb is_white_space ws1 = true /\ forallb is_white_space ws2 = true /\
    m = code_units "." ++ ws1 ++ code_units "handler" ++ ws2 ++ code_units "(".
Proof.
  unfold ServerFn_after. split.
  - intro H.
    apply matches_seq_inv in H. destruct H as (s1 & t1 & -> & H1 & H2).
    apply matches_seq_inv in H2. destruct H2 as (s2 & t2 & -> & H3 & H4).
    apply matches_seq_inv in H4. destruct H4 as (s3 & t3 & -> & H5 & H6).
    apply matches_seq_inv in H6. destruct H6 as (s4 & t4 & -> & H7 & H8).
    apply matches_lit in H1, H5, H8. apply matches_star_space in H3, H7. subst.
    exists s2, s4. auto.
  - intros (ws1 & ws2 & H1 & H2 & ->).
    apply m_seq; [apply matches_lit; reflexivity | ].
    apply m_seq; [apply matches_star_space; assumption | ].
    apply m_seq; [apply matches_lit; reflexivity | ].
    apply m_seq; [apply matches_star_space; assumption | ].
    apply matches_lit; reflexivity.
Qed.

End DetectFacts.

Module ServerFnDetection.

Import Detect.

(** X10. What the pattern before the repair detects: exactly the texts that
    hold [.handler], then white space or nothing, then [(]. *)
Theorem before_detects_iff (code : list CodeUnit) :
  test ServerFn_before code = true <->
  exists pre ws post,
    forallb is_white_space ws = true /\
    code = pre ++ (code_units ".handler" ++ ws ++ code_units "(") ++ post.
Proof.
  rewrite DetectFacts.test_spec. unfold detects. split.
  - intros (pre & m & post & -> & H). apply DetectFacts.matches_before in H.
    destruct H as (ws & Hws & ->). exists pre, ws, post. auto.
  - intros (pre & ws & post & Hws & ->).
    exists pre, (code_units ".handler" ++ ws ++ code_units "("), post.
    split; [reflexivity | ]. apply DetectFacts.matches_before. exists ws. auto.
Qed.

(** X11. What the repaired pattern detects: exactly the texts that hold [.],
    then white space or nothing, then [handler], then white space or
    nothing, then [(]. *)
Theorem after_detects_iff (code : list CodeUnit) :
  test ServerFn_after code = true <->
  exists pre ws1 ws2 post,
    forallb is_white_space ws1 = true /\ forallb is_white_space ws2 = true /\
    code = pre ++ (code_units "." ++ ws1 ++ code_units "handler" ++ ws2
                     ++ code_units "(") ++ post.
Proof.
  rewrite DetectFacts.test_spec. unfold detects. split.
  - intros (pre & m & post & -> & H). apply DetectFacts.matches_after in H.
    destruct H as (ws1 & ws2 & H1 & H2 & ->). exists pre, ws1, ws2, post. auto.
  - intros (pre & ws1 & ws2 & post & H1 & H2 & ->).
    eexists pre, _, post. split; [reflexivity | ].
    apply DetectFacts.matches_after. exists ws1, ws2. auto.
Qed.

(** X12. The repair is backwards compatible: every text detected before is
    detected after. *)
Theorem after_extends_before (code : list CodeUnit) :
  test ServerFn_before code = true -> test ServerFn_after code = true.
Proof.
  rewrite !DetectFacts.test_spec. unfold detects.
  intros (pre & m & post & -> & H). exists pre, m, post.
  split; [reflexivity | ].
  apply DetectFacts.matches_before in H. destruct H as (ws & Hws & ->).
  apply DetectFacts.matches_after. exists [], ws. auto.
Qed.

Lemma after_extends_before_witness :
  test ServerFn_after chain_as_written = true.
Proof.
  apply (after_extends_before chain_as_written). vm_compute. reflexivity.
Defined.

(** X13. A line break between [.] and [handler] hides the call from the pattern
    before the repair, whenever the text holds no [.handler] elsewhere;
    the repaired pattern finds it. *)
Theorem line_break_hides_handler (pre ws post : list CodeUnit) :
  forallb is_white_space ws = true ->
  test (lit ".handler") (pre ++ code_units "." ++ ws ++ code_units "handler(" ++ post)
    = false ->
  test ServerFn_before (pre ++ code_units "." ++ ws ++ code_units "handler(" ++ post)
    = false /\
  test ServerFn_after (pre ++ code_units "." ++ ws ++ code_units "handler(" ++ post)
    = true.
Proof.
  intros Hws Hnot. split.
  - destruct (test ServerFn_before _) eqn:E; [ | reflexivity].
    apply before_detects_iff in E. destruct E as (p & w & q & _ & E).
    assert (Hin : test (lit ".handler")
                    (pre ++ code_units "." ++ ws ++ code_units "handler(" ++ post)
                  = true).
    { apply DetectFacts.test_spec. exists p, (code_units ".handler"), (w ++ code_units "(" ++ q).
      split; [ | apply DetectFacts.matches_lit; reflexivity].
      rewrite E. rewrite <- !app_assoc. reflexivity. }
    congruence.
  - apply after_detects_iff. exists pre, ws, [], post.
    split; [assumption | split; [reflexivity | ] ].
    rewrite <- !app_assoc. reflexivity.
Qed.

Lemma line_break_hides_handler_witness :
  test ServerFn_before chain_as_received = false /\
  test ServerFn_after chain_as_received = true.
Proof.
  apply (line_break_hides_handler
           (code_units "const $getRandomSong = createServerFn({" ++ [10%N] ++
            code_units "  method: 'POST'" ++ [10%N] ++
            code_units "})." ++ [10%N] ++
            code_units "middleware([authMiddleware])")
           [10%N]
           (code_units "async () => {")).
  - reflexivity.
  - vm_compute. reflexivity.
Defined.

Example written_chain_detected :
  test ServerFn_before chain_as_written = true /\
  test ServerFn_after chain_as_written = true.
Proof. split; vm_compute; reflexivity. Qed.

Example received_chain_missed :
  test ServerFn_before chain_as_received = false /\
  test ServerFn_after chain_as_received = true.
Proof. split; vm_compute; reflexivity. Qed.

End ServerFnDetection.

(** ** Calls in reachable states *)

Lemma array_get_member (a : list SongRecord) (x : Number) (s : SongRecord) :
  array_get a x = VSong s -> In s a.
Proof.
  unfold array_get. destruct (to_integer x) as [i | ]; [ | discriminate].
  destruct (0 <=? i); [ | discriminate].
  destruct (nth_error a (Z.to_nat i)) as [s' | ] eqn:E; [ | discriminate].
  intro H. inversion H; subst. eapply nth_error_In; eassumption.
Qed.

(** X4. Whatever the store answers and whatever number the random source
    gives (even one outside [[0, 1)]), a call in a reachable state that
    resolves with a record resolves with one of the seven records of
    [songs]; and with a draw in [[0, 1)] it never resolves with
    [undefined]. *)
Theorem reachable_call_outcome
    (payload : string) (env : Env) (st : State) (v : JsValue) :
  reachable st ->
  fst (getRandomSong payload env st) = Normal v ->
  (forall s, v = VSong s -> In s songs /\ 1 <= id s <= 7) /\
  (in_unit_interval (random_source env (draws st)) = true -> v <> VUndefined).
Proof.
  intros Hreach Hres. pose proof (reachable_songs st Hreach) as Hsongs.
  rewrite getRandomSong_unfold in Hres.
  destruct (db_answer env "SELECT 1") as [rows | err] eqn:Hdb.
  - rewrite (handler_resolved _ _ _ rows Hdb) in Hres. cbn [fst] in Hres.
    inversion Hres as [Hv]. clear Hres. rewrite Hsongs. split.
    + intros s Hs. apply array_get_member in Hs. split; [assumption | ].
      cbn in Hs. intuition (subst; cbn; lia).
    + intros Hr Hund.
      destruct (index_in_range songs _ Hr) as (i & Hi & Hrange);
        [discriminate | vm_compute; discriminate | ].
      destruct (array_get_in_range _ _ _ Hi Hrange) as (s & Hget & _).
      congruence.
  - rewrite (handler_rejected _ _ _ err Hdb) in Hres. discriminate Hres.
Qed.

Lemma reachable_call_outcome_witness :
  (forall s, VSong (mkSong 7 "Beverly Hills" "Weezer") = VSong s ->
             In s songs /\ 1 <= id s <= 7) /\
  (in_unit_interval (random_source (healthy_env below_one) (draws initial_state))
     = true -> VSong (mkSong 7 "Beverly Hills" "Weezer") <> VUndefined).
Proof.
  apply (reachable_call_outcome "{}" (healthy_env below_one) initial_state).
  - apply reach_init.
  - vm_compute. reflexivity.
Defined.








Example trace_after_two_calls :
  trace (snd (getRandomSong "{}" (failing_env one_half)
                (snd (getRandomSong "{}" (healthy_env below_one) initial_state))))
  = [EvQuery "SELECT 1"; EvRandom below_one; EvElement (of_Z 6);
     EvQuery "SELECT 1"].
Proof. vm_compute. reflexivity. Qed.

(** ** The button *)

(** X7. A click with a store that answers, a draw in [[0, 1)] and a non-empty
    array shows exactly one new alert, after those already shown, and its
    text names a record of the array. *)
Theorem click_alerts_catalog_song
    (env : Env) (st : State) (alerts : list string) (rows : list Row) :
  db_answer env "SELECT 1" = Resolved rows ->
  in_unit_interval (random_source env (draws st)) = true ->
  songs_array st <> [] ->
  Z.of_nat (List.length (songs_array st)) <= max_array_length ->
  exists s : SongRecord,
    In s (songs_array st) /\
    snd (handleClick env st alerts) = alerts ++ [alert_text s].
Proof.
  intros Hdb Hr Hne Hlen.
  destruct (resolved_returns_element "{}" env st rows Hdb Hr Hne Hlen)
    as (s & Hres & Hin).
  exists s. split; [assumption | ].
  unfold handleClick. destruct (getRandomSong "{}" env st) as [res st'].
  cbn [fst] in Hres. subst res. reflexivity.
Qed.

Lemma click_alerts_catalog_song_witness :
  exists s : SongRecord,
    In s songs /\
    snd (handleClick (healthy_env one_half) initial_state []) = [] ++ [alert_text s].
Proof.
  apply (click_alerts_catalog_song (healthy_env one_half) initial_state []
           [[("1"%string, 1)]]).
  - reflexivity.
  - vm_compute. reflexivity.
  - discriminate.
  - vm_compute. discriminate.
Defined.

Example click_one_half :
  snd (handleClick (healthy_env one_half) initial_state [])
  = ["Random song: My Own Worst Enemy by Lit"%string].
Proof. vm_compute. reflexivity. Qed.

(** X8. A click never removes or changes an alert, shows at most one new one,
    and a new one always names a record of the array: in particular no
    alert is shown for [undefined] or for an error. *)
Theorem click_alerts_only_catalog_songs
    (env : Env) (st : State) (alerts : list string) :
  snd (handleClick env st alerts) = alerts \/
  exists s : SongRecord,
    In s (songs_array st) /\
    snd (handleClick env st alerts) = alerts ++ [alert_text s].
Proof.
  unfold handleClick. rewrite getRandomSong_unfold.
  destruct (db_answer env "SELECT 1") as [rows | err] eqn:Hdb.
  - rewrite (handler_resolved _ _ _ rows Hdb).
    destruct (array_get (songs_array st) _) as [ | s ] eqn:Hget.
    + left. reflexivity.
    + right. exists s. split; [ | reflexivity].
      eapply array_get_member; eassumption.
  - rewrite (handler_rejected _ _ _ err Hdb). left. reflexivity.
Qed.

(** X9. A click while the store fails shows nothing: the error of the query
    reaches no alert, and the only action on the server is the query. *)
Theorem click_failing_store_silent
    (env : Env) (st : State) (alerts : list string) (err : JsError) :
  db_answer env "SELECT 1" = Rejected err ->
  handleClick env st alerts = (log (EvQuery "SELECT 1") st, alerts).
Proof.
  intro Hdb. unfold handleClick.
  rewrite getRandomSong_unfold, (handler_rejected _ _ _ err Hdb). reflexivity.
Qed.

Lemma click_failing_store_silent_witness :
  handleClick (failing_env one_half) initial_state ["earlier"%string]
  = (log (EvQuery "SELECT 1") initial_state, ["earlier"%string]).
Proof.
  apply (click_failing_store_silent (failing_env one_half) initial_state
           ["earlier"%string] (mkError "unable to open database file")).
  reflexivity.
Defined.

(** ** The computed index against the exact one *)

(** X1. The index that the handler computes in binary64 is the index of exact
    arithmetic [floor (r * songs.length)], or the next one. *)
Theorem index_near_exact (a : list SongRecord) (r : Number) :
  in_unit_interval r = true ->
  a <> [] ->
  Z.of_nat (List.length a) <= max_array_length ->
  exists i : Z,
    to_integer (floor (mul r (array_length a))) = Some i /\
    exact_index (List.length a) (to_Q r) <= i
      <= exact_index (List.length a) (to_Q r) + 1.
Proof.
  intros Hr Ha Hlen. unfold array_length.
  apply NumberFacts.floor_mul_near_exact; [assumption | ].
  pose proof max_array_length_lt.
  destruct a; [congruence | cbn [List.length] in *; lia].
Qed.

Lemma index_near_exact_witness :
  exists i : Z,
    to_integer (floor (mul below_one_seventh (array_length songs))) = Some i /\
    exact_index (List.length songs) (to_Q below_one_seventh) <= i
      <= exact_index (List.length songs) (to_Q below_one_seventh) + 1.
Proof.
  apply (index_near_exact songs below_one_seventh).
  - vm_compute. reflexivity.
  - discriminate.
  - vm_compute. discriminate.
Defined.

(** X2. The two indices do differ: there is a draw in [[0, 1)], below [1/7],
    for which exact arithmetic gives the first record of [songs] and the
    handler returns the second. *)
Theorem index_differs_from_exact :
  exists r : Number,
    in_unit_interval r = true /\
    (to_Q r < 1 # 7)%Q /\
    exact_index (List.length songs) (to_Q r) = 0 /\
    fst (getRandomSong "{}" (healthy_env r) initial_state)
      = Normal (VSong (mkSong 2 "Smells Like Teen Spirit" "Nirvana")).
Proof.
  exists below_one_seventh. repeat split; vm_compute; reflexivity.
Qed.

(** ** Every index is reached *)

Module DrawFacts.

Import NumberFacts.

Lemma of_Z_pos_canonical (n : Z) :
  0 < n < 2 ^ 53 ->
  exists (my : positive) (ey : Z),
    of_Z n = S754_finite false my ey /\
    -52 <= ey <= 0 /\ Z.pos my = n * 2 ^ (- ey) /\
    Z.pos (digits2_pos my) = 53.
Proof.
  intros [Hn0 Hn]. destruct n as [ | p | p ]; try lia.
  unfold of_Z, binary_normalize, binary_round.
  pose proof (digits2_pos_bounds p) as Hd.
  set (d := Z.pos (digits2_pos p)) in *.
  assert (Hd53 : 1 <= d <= 53).
  { split; [subst d; lia | ].
    destruct (Z_le_gt_dec d 53) as [ | Hgt ]; [assumption | exfalso ].
    assert (2 ^ 53 <= 2 ^ (d - 1)) by (apply Z.pow_le_mono_r; lia). lia. }
  assert (Hf : fexp prec emax (d + 0) = d - 53).
  { unfold fexp, SpecFloat.emin, prec, emax. lia. }
  rewrite Hf. unfold shl_align.
  destruct (d - 53 - 0) as [ | q | q ] eqn:Eq; try lia.
  - exists p, 0. split; [ | split; [lia | split; [cbn; lia | fold d; lia] ] ].
    apply binary_round_aux_canonical; [ | unfold emax, prec; lia ].
    unfold canonical_mantissa. fold d. rewrite Hf. apply Z.eqb_eq. lia.
  - destruct (iter_xO_spec p q) as [Hv Hdig].
    exists (Pos.iter xO p q), (d - 53).
    split; [ | split; [lia | split ] ].
    + apply binary_round_aux_canonical; [ | unfold emax, prec; lia ].
      unfold canonical_mantissa. rewrite Hdig. fold d.
      unfold fexp, SpecFloat.emin, prec, emax. apply Z.eqb_eq. lia.
    + rewrite Hv. f_equal. f_equal; lia.
    + rewrite Hdig. fold d. lia.
Qed.

(** The integer that [Math.floor] of a product denotes, read off the
    rounded mantissa and exponent. *)
Lemma floor_mul_finite_value (mx my : positive) (ex ey : Z) :
  let '(m2, e2) := round_pair (Z.pos (mx * my)) (ex + ey) in
  0 <= m2 -> e2 <= 0 -> m2 / 2 ^ (- e2) < 2 ^ 53 ->
  to_integer (floor (mul (S754_finite false mx ex) (S754_finite false my ey)))
    = Some (m2 / 2 ^ (- e2)).
Proof.
  unfold mul, SFmul. cbn [xorb]. rewrite binary_round_aux_pair.
  destruct (round_pair (Z.pos (mx * my)) (ex + ey)) as [m2 e2].
  intros Hm2 He2 Hq.
  destruct m2 as [ | p | p ]; [ | | lia ].
  - rewrite Z.div_0_l by (apply Z.pow_nonzero; lia). reflexivity.
  - replace (e2 <=? emax - prec) with true
      by (symmetry; apply Z.leb_le; unfold emax, prec; lia).
    destruct (Z.eq_dec e2 0) as [-> | Hne].
    + cbn. f_equal. rewrite Z.div_1_r. lia.
    + cbn [floor].
      replace (0 <=? e2) with false by (symmetry; apply Z.leb_gt; lia).
      cbn zeta. fold (of_Z (Z.pos p / 2 ^ (- e2))).
      apply to_integer_of_Z. split; [ | assumption].
      apply Z.div_pos; [lia | apply Z.pow_pos_nonneg; lia].
Qed.

Lemma ceil_bounds (n i : Z) :
  0 < n -> 0 <= i ->
  let m := (i * 2 ^ 53 + n - 1) / n in
  i * 2 ^ 53 <= m * n <= i * 2 ^ 53 + n - 1.
Proof.
  intros Hn Hi m.
  pose proof (Z.div_mod (i * 2 ^ 53 + n - 1) n ltac:(lia)) as Hdm.
  pose proof (Z.mod_pos_bound (i * 2 ^ 53 + n - 1) n Hn) as Hmod.
  fold m in Hdm. lia.
Qed.

(** For the draw of [draw_for], the exact product plus half a unit in the
    last place stays below [i + 1]. *)
Lemma tight_half_ulp (mx ny : positive) (ex eyn ey' m n i : Z) :
  Z.pos mx = m * 2 ^ (- ey') -> -52 <= ey' <= 0 -> ex = ey' - 53 ->
  Z.pos ny = n * 2 ^ (- eyn) -> -52 <= eyn <= 0 ->
  i * 2 ^ 53 <= m * n <= i * 2 ^ 53 + n - 1 ->
  0 <= i -> 0 < n -> n + i < 2 ^ 52 ->
  let k := fexp prec emax (Zdigits2 (Z.pos (mx * ny)) + (ex + eyn)) - (ex + eyn) in
  Z.pos (mx * ny) + (if 1 <=? k then 2 ^ (k - 1) else 0)
    < (i + 1) * 2 ^ (- (ex + eyn)).
Proof.
  intros Hmx Hey' Hex Hny Heyn Hmn Hi Hn Hni k. cbn [Zdigits2] in k.
  pose proof (digits2_pos_bounds (mx * ny)) as Hd.
  set (d := Z.pos (digits2_pos (mx * ny))) in *. clearbody d.
  set (T := 2 ^ (- ey' - eyn)).
  assert (HT : 1 <= T).
  { unfold T. change 1 with (2 ^ 0). apply Z.pow_le_mono_r; lia. }
  assert (HM : Z.pos (mx * ny) = m * n * T).
  { rewrite Pos2Z.inj_mul, Hmx, Hny. unfold T.
    replace (- ey' - eyn) with (- ey' + - eyn) by lia.
    rewrite Z.pow_add_r by lia. ring. }
  assert (HD : 2 ^ (- (ex + eyn)) = 2 ^ 53 * T).
  { unfold T. rewrite <- Z.pow_add_r by lia. f_equal; lia. }
  rewrite HM in *. rewrite HD.
  assert (Hk : k = d - 53 \/ k = - 1074 - (ex + eyn)).
  { unfold k, fexp, SpecFloat.emin, prec, emax. lia. }
  clearbody k.
  set (A := 2 ^ 53) in *.
  assert (HA : A = 2 ^ 53) by reflexivity.
  assert (Hmn1 : m * n * T <= (i * A + n - 1) * T) by nia.
  destruct (1 <=? k) eqn:E; [apply Z.leb_le in E | nia ].
  destruct Hk as [Hk | Hk].
  - assert (E2 : 2 ^ (d - 1) = 2 ^ (k - 1) * A).
    { unfold A. rewrite <- Z.pow_add_r by lia. f_equal; lia. }
    assert (Hh : 0 < 2 ^ (k - 1)) by (apply Z.pow_pos_nonneg; lia).
    set (h := 2 ^ (k - 1)) in *. clearbody h.
    (* A * (M + h) <= (A + 1) * M < A * (i + 1) * A * T *)
    assert (H1 : A * (m * n * T + h) <= (A + 1) * ((i * A + n - 1) * T)) by nia.
    assert (H2 : (A + 1) * (i * A + n - 1) < A * ((i + 1) * A)).
    { assert (n - 1 + i <= A - 2) by lia. nia. }
    assert (H3 : (A + 1) * ((i * A + n - 1) * T) < A * ((i + 1) * A * T)) by nia.
    assert (0 < A) by lia. nia.
  - assert (Hh : 2 ^ (k - 1) < T).
    { unfold T. apply Z.pow_lt_mono_r; lia. }
    nia.
Qed.

(** The draw of [draw_for] is in the range of [Math.random()], and the
    handler's index expression maps it to [i]. *)
Lemma draw_for_spec (n i : Z) :
  0 < n <= max_array_length -> 0 <= i < n ->
  in_unit_interval (draw_for n i) = true /\
  to_integer (floor (mul (draw_for n i) (of_Z n))) = Some i.
Proof.
  intros Hn Hi. unfold max_array_length in Hn.
  assert (Hn53 : 0 < n < 2 ^ 53) by lia.
  destruct (of_Z_pos n Hn53) as (ny & eyn & Eofn & Heyn & Hny).
  pose proof (ceil_bounds n i ltac:(lia) ltac:(lia)) as Hmn. cbn zeta in Hmn.
  unfold draw_for. set (m := (i * 2 ^ 53 + n - 1) / n) in *.
  destruct (Z.eq_dec i 0) as [-> | Hi0].
  - assert (Hm0 : m = 0) by (unfold m; apply Z.div_small; lia).
    rewrite Hm0, Eofn. cbn. auto.
  - assert (Hm : 0 < m < 2 ^ 53) by nia.
    destruct (of_Z_pos_canonical m Hm) as (mx & ey' & Eofm & Hey' & Hmx & Hdig).
    rewrite Eofm, Eofn. clearbody m.
    pose proof (digits2_pos_bounds mx) as Hdb. rewrite Hdig in Hdb.
    split.
    + (* the draw is a valid number below one *)
      unfold in_unit_interval, valid, valid_binary, bounded, canonical_mantissa.
      rewrite Hdig, one_eq. unfold ltb, SFltb, SFcompare.
      replace (ey' - 53 ?= -52) with Lt by (symmetry; apply Z.compare_lt_iff; lia).
      cbn [negb andb]. rewrite andb_true_r. apply andb_true_iff. split.
      * apply Z.eqb_eq. unfold fexp, SpecFloat.emin, prec, emax. lia.
      * apply Z.leb_le. unfold emax, prec. lia.
    + pose proof (floor_mul_finite_value mx ny (ey' - 53) eyn) as Hval.
      pose proof (round_pair_product_near mx ny (ey' - 53) eyn n
                    ltac:(lia) ltac:(lia) ltac:(lia) Hny Hn53) as Hnear.
      cbn zeta in Hnear.
      pose proof (round_pair_bound (Z.pos (mx * ny)) (ey' - 53 + eyn)
                    ltac:(lia)) as Hbnd.
      cbn zeta in Hbnd.
      pose proof (tight_half_ulp mx ny (ey' - 53) eyn ey' m n i
                    Hmx Hey' eq_refl Hny Heyn Hmn ltac:(lia) ltac:(lia)
                    ltac:(lia)) as Htight.
      cbn zeta in Htight.
      destruct (round_pair (Z.pos (mx * ny)) (ey' - 53 + eyn)) as [m2 e2].
      destruct Hnear as (He2 & Hlo & Hhi). destruct Hbnd as (Hm2 & Hee & Hbnd).
      (* the exact index is [i] *)
      assert (HE : Z.pos mx * n / 2 ^ (- (ey' - 53)) = i).
      { assert (Hp : 2 ^ (- (ey' - 53)) = 2 ^ 53 * 2 ^ (- ey')).
        { rewrite <- Z.pow_add_r by lia. f_equal; lia. }
        assert (Hpe : 0 < 2 ^ (- ey')) by (apply Z.pow_pos_nonneg; lia).
        rewrite Hp, Hmx.
        replace (m * 2 ^ (- ey') * n) with (m * n * 2 ^ (- ey')) by ring.
        rewrite Z.div_mul_cancel_r by lia.
        apply Zdiv_eq_iff; lia. }
      rewrite HE in Hlo, Hhi.
      assert (Hp2 : 0 < 2 ^ (- e2)) by (apply Z.pow_pos_nonneg; lia).
      assert (Hlt : m2 < (i + 1) * 2 ^ (- e2)).
      { assert (Hs : m2 * 2 ^ (e2 - (ey' - 53 + eyn))
                     < (i + 1) * 2 ^ (- (ey' - 53 + eyn))) by lia.
        replace (- (ey' - 53 + eyn)) with ((e2 - (ey' - 53 + eyn)) + - e2) in Hs
          by lia.
        rewrite Z.pow_add_r in Hs by lia.
        assert (0 < 2 ^ (e2 - (ey' - 53 + eyn))) by (apply Z.pow_pos_nonneg; lia).
        nia. }
      assert (Hq : m2 / 2 ^ (- e2) = i).
      { apply Zdiv_eq_iff; lia. }
      rewrite Hq in Hval. apply Hval; lia.
Qed.

End DrawFacts.

(** X3. Every record of the array can be returned: for each one there is a
    draw in [[0, 1)] with which a call, given a store that answers,
    resolves with that record. *)
Theorem every_record_can_be_returned (st : State) (s : SongRecord) :
  In s (songs_array st) ->
  Z.of_nat (List.length (songs_array st)) <= max_array_length ->
  exists r : Number,
    in_unit_interval r = true /\
    forall (payload : string) (env : Env) (rows : list Row),
      db_answer env "SELECT 1" = Resolved rows ->
      random_source env (draws st) = r ->
      fst (getRandomSong payload env st) = Normal (VSong s).
Proof.
  intros Hin Hlen.
  apply In_nth_error in Hin. destruct Hin as [k Hk].
  assert (Hklen : (k < List.length (songs_array st))%nat).
  { apply nth_error_Some. congruence. }
  destruct (DrawFacts.draw_for_spec (Z.of_nat (List.length (songs_array st)))
              (Z.of_nat k) ltac:(lia) ltac:(lia)) as [Hunit Hidx].
  exists (draw_for (Z.of_nat (List.length (songs_array st))) (Z.of_nat k)).
  split; [assumption | ].
  intros payload env rows Hdb Hr.
  rewrite getRandomSong_unfold, (handler_resolved _ _ _ rows Hdb). cbn [fst].
  rewrite Hr. unfold array_get, array_length. rewrite Hidx.
  replace (0 <=? Z.of_nat k) with true by (symmetry; apply Z.leb_le; lia).
  rewrite Nat2Z.id, Hk. reflexivity.
Qed.

Lemma every_record_can_be_returned_witness :
  exists r : Number,
    in_unit_interval r = true /\
    forall (payload : string) (env : Env) (rows : list Row),
      db_answer env "SELECT 1" = Resolved rows ->
      random_source env (draws initial_state) = r ->
      fst (getRandomSong payload env initial_state)
        = Normal (VSong (mkSong 5 "Fat Lip" "Sum 41")).
Proof.
  apply (every_record_can_be_returned initial_state (mkSong 5 "Fat Lip" "Sum 41")).
  - cbn. auto 10.
  - vm_compute. discriminate.
Defined.

Example draw_for_fifth :
  fst (getRandomSong "{}" (healthy_env (draw_for 7 4)) initial_state)
  = Normal (VSong (mkSong 5 "Fat Lip" "Sum 41")).
Proof. vm_compute. reflexivity. Qed.

(** ** Rejections *)

(** X6. A call is rejected exactly when the liveness query is, and with the
    same error: the handler throws nothing of its own, whatever the array
    holds and whatever number the random source gives. *)
Theorem rejection_iff_query_fails
    (payload : string) (env : Env) (st : State) (e : JsError) :
  fst (getRandomSong payload env st) = Throw e <->
  db_answer env "SELECT 1" = Rejected e.
Proof.
  rewrite getRandomSong_unfold. split.
  - intro H. destruct (db_answer env "SELECT 1") as [rows | err] eqn:Hdb.
    + rewrite (handler_resolved _ _ _ rows Hdb) in H. discriminate H.
    + rewrite (handler_rejected _ _ _ err Hdb) in H. cbn in H. congruence.
  - intro Hdb. rewrite (handler_rejected _ _ _ e Hdb). reflexivity.
Qed.

Example not_a_number_draw :
  fst (getRandomSong "{}" (healthy_env S754_nan) initial_state) = Normal VUndefined.
Proof. vm_compute. reflexivity. Qed.

(** ** Rounding of the product, relative to its exact value *)

Module RoundoffFacts.

Import NumberFacts.

(** The integer part [I] of the rounded product is at most the exact
    product times [1 + 2^-53]. *)
Lemma round_pair_relative (mx my : positive) (ex ey n : Z) :
  ex <= -53 -> Z.pos mx < 2 ^ 53 -> -1022 < ey <= 0 ->
  Z.pos my = n * 2 ^ (- ey) -> 0 < n < 2 ^ 53 ->
  let '(m2, e2) := round_pair (Z.pos (mx * my)) (ex + ey) in
  (m2 / 2 ^ (- e2)) * 2 ^ (- ex) * 2 ^ 53 <= Z.pos mx * n * (2 ^ 53 + 1).
Proof.
  intros Hex Hmx Hey Hmy Hn.
  pose proof (round_pair_product_near mx my ex ey n Hex Hmx Hey Hmy Hn) as Hnear.
  cbn zeta in Hnear.
  pose proof (round_pair_bound (Z.pos (mx * my)) (ex + ey) ltac:(lia)) as Hbnd.
  cbn zeta in Hbnd. cbn [Zdigits2] in Hbnd.
  pose proof (digits2_pos_bounds (mx * my)) as Hd.
  set (d := Z.pos (digits2_pos (mx * my))) in *. clearbody d.
  destruct (round_pair (Z.pos (mx * my)) (ex + ey)) as [m2 e2].
  destruct Hnear as (He2 & Hlo & Hhi). destruct Hbnd as (Hm2 & Hee & Hbnd).
  set (e := ex + ey) in *.
  set (k := fexp prec emax (d + e) - e) in *.
  assert (Hk : k = d - 53 \/ k = - 1074 - e).
  { unfold k, fexp, SpecFloat.emin, prec, emax. lia. }
  clearbody k.
  set (h := if 1 <=? k then 2 ^ (k - 1) else 0) in *.
  assert (Hp2 : 0 < 2 ^ (- e2)) by (apply Z.pow_pos_nonneg; lia).
  set (I := m2 / 2 ^ (- e2)).
  assert (HI0 : 0 <= I) by (apply Z.div_pos; lia).
  assert (HI : I * 2 ^ (- e2) <= m2).
  { unfold I. rewrite Z.mul_comm. apply Z.mul_div_le; lia. }
  clearbody I.
  assert (He : e <= -53) by (unfold e; lia).
  set (D := 2 ^ (- e)).
  assert (HD : D = 2 ^ (e2 - e) * 2 ^ (- e2)).
  { unfold D. rewrite <- Z.pow_add_r by lia. f_equal; lia. }
  assert (Hpe : 0 < 2 ^ (e2 - e)) by (apply Z.pow_pos_nonneg; lia).
  set (M := Z.pos (mx * my)) in *.
  assert (HM0 : 0 < M) by (unfold M; lia).
  assert (HID : I * D <= M + h) by (rewrite HD; nia).
  (* half a unit in the last place is at most [2^-53] of the product *)
  assert (Hrel : I = 0 \/ 2 ^ 53 * h <= M).
  { unfold h. destruct (1 <=? k) eqn:E; [apply Z.leb_le in E | right; lia].
    destruct Hk as [Hk | Hk].
    - right. replace (2 ^ 53 * 2 ^ (k - 1)) with (2 ^ (d - 1)); [lia | ].
      rewrite <- Z.pow_add_r by lia. f_equal; lia.
    - destruct (Z.eq_dec I 0) as [ | HIne]; [left; assumption | right].
      assert (HDh : D = 2 ^ (k - 1) * 2 ^ 1075).
      { unfold D. rewrite <- Z.pow_add_r by lia. f_equal; lia. }
      assert (Hbig : 2 ^ 53 + 1 <= 2 ^ 1075).
      { assert (2 ^ 54 <= 2 ^ 1075) by (apply Z.pow_le_mono_r; lia). lia. }
      assert (Hh0 : 0 < 2 ^ (k - 1)) by (apply Z.pow_pos_nonneg; lia).
      unfold h in HID. replace (1 <=? k) with true in HID
        by (symmetry; apply Z.leb_le; lia).
      set (B := 2 ^ 1075) in *. clearbody B.
      set (g := 2 ^ (k - 1)) in *. clearbody g.
      assert (g * B <= I * D) by nia.
      nia. }
  clearbody h D.
  assert (HY : 0 < 2 ^ (- ey)) by (apply Z.pow_pos_nonneg; lia).
  assert (HX : 0 < 2 ^ (- ex)) by (apply Z.pow_pos_nonneg; lia).
  assert (HMY : M = Z.pos mx * n * 2 ^ (- ey)).
  { unfold M. rewrite Pos2Z.inj_mul, Hmy. ring. }
  assert (HDY : 2 ^ (- e) = 2 ^ (- ex) * 2 ^ (- ey)).
  { unfold e. rewrite <- Z.pow_add_r by lia. f_equal; lia. }
  assert (HDD : 2 ^ (e2 - e) * 2 ^ (- e2) = 2 ^ (- ex) * 2 ^ (- ey)).
  { rewrite <- HDY. rewrite <- Z.pow_add_r by lia. f_equal; lia. }
  rewrite HD, HDD in HID. clear HD HDD HDY.
  set (A := 2 ^ 53) in *.
  assert (HA : 0 < A) by (unfold A; lia).
  clearbody A M.
  set (X := 2 ^ (- ex)) in *. set (Y := 2 ^ (- ey)) in *. clearbody X Y.
  destruct Hrel as [-> | Hrel]; [nia | ].
  assert (H1 : A * (I * (X * Y)) <= (A + 1) * M) by nia.
  rewrite HMY in H1.
  assert (H2 : (I * X * A) * Y <= (Z.pos mx * n * (A + 1)) * Y) by nia.
  apply Z.mul_le_mono_pos_r in H2; assumption.
Qed.

Lemma Qle_scaled (I a n : Z) (P B : positive) :
  I * Z.pos P * Z.pos B <= a * n * (Z.pos B + 1) ->
  (inject_Z I <= (a # P) * inject_Z n * (1 + (1 # B)))%Q.
Proof.
  intro H. unfold Qle, Qmult, Qplus, inject_Z. cbn [Qnum Qden].
  rewrite !Pos2Z.inj_mul. nia.
Qed.

Lemma Qlt_scaled (I a n : Z) (P : positive) :
  a * n < (I + 1) * Z.pos P ->
  ((a # P) * inject_Z n < inject_Z (I + 1))%Q.
Proof.
  intro H. unfold Qlt, Qmult, inject_Z. cbn [Qnum Qden].
  rewrite !Pos2Z.inj_mul. nia.
Qed.

(** The index that the handler computes, against the exact product
    [x = r * n]: it is an integer [I] with [I <= x * (1 + 2^-53)] and
    [x < I + 1]. *)
Lemma floor_mul_sandwich (r : Number) (n : Z) :
  in_unit_interval r = true ->
  0 < n < 2 ^ 53 ->
  exists I : Z,
    to_integer (floor (mul r (of_Z n))) = Some I /\ 0 <= I /\
    (inject_Z I <= to_Q r * inject_Z n * (1 + roundoff))%Q /\
    (to_Q r * inject_Z n < inject_Z (I + 1))%Q.
Proof.
  intros Hr Hn.
  destruct (of_Z_pos n Hn) as (my & ey & Eof & Hey & Hmy).
  rewrite Eof.
  destruct r as [ s | s | | s mx ex ]; try discriminate Hr.
  - exists 0. split; [reflexivity | split; [lia | ] ].
    cbn [to_Q]. split.
    + rewrite !Qmult_0_l. apply Qle_refl.
    + rewrite Qmult_0_l. reflexivity.
  - apply in_unit_interval_finite in Hr. destruct Hr as (-> & Hex & Hmx).
    pose proof (DrawFacts.floor_mul_finite_value mx my ex ey) as Hval.
    pose proof (round_pair_product_near mx my ex ey n
                  Hex Hmx ltac:(lia) Hmy Hn) as Hnear.
    cbn zeta in Hnear.
    pose proof (round_pair_relative mx my ex ey n
                  Hex Hmx ltac:(lia) Hmy Hn) as Hrel.
    pose proof (round_pair_product_lt mx my ex ey Hex Hmx ltac:(lia)) as Hp.
    destruct (round_pair (Z.pos (mx * my)) (ex + ey)) as [m2 e2].
    destruct Hnear as (He2 & Hlo & Hhi). destruct Hp as (Hm2 & _ & _).
    assert (HX : 0 < 2 ^ (- ex)) by (apply Z.pow_pos_nonneg; lia).
    assert (Hp2 : 0 < 2 ^ (- e2)) by (apply Z.pow_pos_nonneg; lia).
    set (E := Z.pos mx * n / 2 ^ (- ex)) in *.
    assert (HE : E * 2 ^ (- ex) <= Z.pos mx * n < (E + 1) * 2 ^ (- ex)).
    { apply Zdiv_eq_iff; [assumption | reflexivity]. }
    assert (HEn : 0 <= E < n).
    { assert (2 ^ 53 <= 2 ^ (- ex)) by (apply Z.pow_le_mono_r; lia).
      split; [apply Z.div_pos; lia | ].
      apply Z.div_lt_upper_bound; [lia | nia]. }
    clearbody E.
    set (I := m2 / 2 ^ (- e2)) in *.
    assert (HI : E <= I <= E + 1).
    { split.
      - apply Z.div_le_lower_bound; [lia | nia].
      - apply Z.div_le_upper_bound; [lia | nia]. }
    clearbody I.
    exists I. split; [apply Hval; lia | split; [lia | ] ].
    unfold to_Q.
    replace (0 <=? ex) with false by (symmetry; apply Z.leb_gt; lia).
    cbn [cond_Zopp]. unfold roundoff.
    assert (HP : Z.pos (Z.to_pos (2 ^ (- ex))) = 2 ^ (- ex))
      by (apply Z2Pos.id; assumption).
    split.
    + apply Qle_scaled. rewrite HP.
      change (Z.pos 9007199254740992) with (2 ^ 53). exact Hrel.
    + apply Qlt_scaled. rewrite HP. nia.
Qed.

End RoundoffFacts.

(** ** The share of each record *)

Lemma share_inner_iff (q : Q) (i : Z) :
  (share_inner_lo i <= q /\ q < share_inner_hi i)%Q <->
  (inject_Z i <= q * inject_Z 7 /\
   q * inject_Z 7 * (1 + roundoff) < inject_Z (i + 1))%Q.
Proof.
  destruct q as [a b].
  unfold share_inner_lo, share_inner_hi, roundoff, Qle, Qlt, Qmult, Qplus, inject_Z.
  cbn [Qnum Qden]. rewrite !Pos2Z.inj_mul. lia.
Qed.

Lemma share_outer_iff (q : Q) (i : Z) :
  (share_outer_lo i <= q /\ q < share_outer_hi i)%Q <->
  (inject_Z i <= q * inject_Z 7 * (1 + roundoff) /\
   q * inject_Z 7 < inject_Z (i + 1))%Q.
Proof.
  destruct q as [a b].
  unfold share_outer_lo, share_outer_hi, roundoff, Qle, Qlt, Qmult, Qplus, inject_Z.
  cbn [Qnum Qden]. rewrite !Pos2Z.inj_mul. lia.
Qed.

(** The end points are the ones announced: [(i+1) / (7 (1 + 2^-53))] and
    [i / (7 (1 + 2^-53))]. *)
Lemma share_end_points (i : Z) :
  (share_inner_hi i == inject_Z (i + 1) / (7 * (1 + roundoff)))%Q /\
  (share_outer_lo i == inject_Z i / (7 * (1 + roundoff)))%Q.
Proof.
  unfold share_inner_hi, share_outer_lo, roundoff, Qeq, Qdiv, Qmult, Qinv, Qplus,
    inject_Z.
  cbn. lia.
Qed.

Lemma songs_NoDup : NoDup songs.
Proof.
  apply (NoDup_map_inv id). exact (ok_ids_distinct songs songs_ok).
Qed.

(** C4, as the code behaves.  The handler forms the product
    [Math.random() * songs.length] in binary64, so the share of each of
    the seven records is [1/7] up to the unit roundoff [2^-53], not
    exactly [1/7].  For the record of index [i] and a draw [r] in
    [[0, 1)], with a store that answers: if
    [i/7 <= r < (i+1) / (7 (1 + 2^-53))] the call returns that record, and
    if the call returns that record then
    [i / (7 (1 + 2^-53)) <= r < (i+1)/7].  The first interval has length
    [(1/7) (1 - (i+1)/(2^53+1))], the second [(1/7) (1 + i/(2^53+1))],
    and the first lies inside the second. *)
Theorem selection_nearly_uniform
    (payload : string) (env : Env) (st : State) (rows : list Row)
    (i : Z) (s : SongRecord) :
  db_answer env "SELECT 1" = Resolved rows ->
  songs_array st = songs ->
  in_unit_interval (random_source env (draws st)) = true ->
  0 <= i ->
  nth_error songs (Z.to_nat i) = Some s ->
  let r := to_Q (random_source env (draws st)) in
  ((share_inner_lo i <= r /\ r < share_inner_hi i)%Q ->
   fst (getRandomSong payload env st) = Normal (VSong s)) /\
  (fst (getRandomSong payload env st) = Normal (VSong s) ->
   (share_outer_lo i <= r /\ r < share_outer_hi i)%Q) /\
  (share_inner_hi i - share_inner_lo i
     == (1 # 7) * (1 - ((i + 1) # 9007199254740993)))%Q /\
  (share_outer_hi i - share_outer_lo i
     == (1 # 7) * (1 + (i # 9007199254740993)))%Q /\
  (share_outer_lo i <= share_inner_lo i)%Q /\
  (share_inner_hi i <= share_outer_hi i)%Q.
Proof.
  intros Hdb Hsongs Hr Hi Hnth r.
  rewrite getRandomSong_unfold, (handler_resolved _ _ _ rows Hdb). cbn [fst].
  rewrite Hsongs. change (array_length songs) with (of_Z 7).
  destruct (RoundoffFacts.floor_mul_sandwich (random_source env (draws st)) 7
              Hr ltac:(lia)) as (I & HI & HI0 & Hlow & Hupp).
  fold r in Hlow, Hupp.
  unfold array_get. rewrite HI.
  replace (0 <=? I) with true by (symmetry; apply Z.leb_le; lia).
  split; [ | split ].
  - (* the inner interval selects the record *)
    intro Hin. apply share_inner_iff in Hin. destruct Hin as [Hlo Hhi].
    assert (HIi : I = i).
    { assert (H1 : (inject_Z I < inject_Z (i + 1))%Q)
        by (eapply Qle_lt_trans; eassumption).
      assert (H2 : (inject_Z i < inject_Z (I + 1))%Q)
        by (eapply Qle_lt_trans; eassumption).
      rewrite <- Zlt_Qlt in H1, H2. lia. }
    subst I. rewrite Hnth. reflexivity.
  - (* the record is selected only from the outer interval *)
    intro Hres.
    destruct (nth_error songs (Z.to_nat I)) as [s' | ] eqn:HnI; [ | discriminate].
    inversion Hres; subst s'.
    assert (HIi : I = i).
    { assert (Hlt : (Z.to_nat I < List.length songs)%nat).
      { apply nth_error_Some. congruence. }
      pose proof (proj1 (NoDup_nth_error songs) songs_NoDup
                    (Z.to_nat I) (Z.to_nat i) Hlt) as Hinj.
      rewrite HnI, Hnth in Hinj. specialize (Hinj eq_refl). lia. }
    subst I. apply share_outer_iff. split; assumption.
  - unfold share_inner_hi, share_inner_lo, share_outer_hi, share_outer_lo,
      Qeq, Qle, Qminus, Qplus, Qopp, Qmult.
    cbn [Qnum Qden]. rewrite !Pos2Z.inj_mul. repeat split; lia.
Qed.

Lemma selection_nearly_uniform_witness :
  let r := to_Q one_half in
  ((share_inner_lo 3 <= r /\ r < share_inner_hi 3)%Q ->
   fst (getRandomSong "{}" (healthy_env one_half) initial_state)
     = Normal (VSong (mkSong 4 "My Own Worst Enemy" "Lit"))) /\
  (fst (getRandomSong "{}" (healthy_env one_half) initial_state)
     = Normal (VSong (mkSong 4 "My Own Worst Enemy" "Lit")) ->
   (share_outer_lo 3 <= r /\ r < share_outer_hi 3)%Q) /\
  (share_inner_hi 3 - share_inner_lo 3
     == (1 # 7) * (1 - ((3 + 1) # 9007199254740993)))%Q /\
  (share_outer_hi 3 - share_outer_lo 3
     == (1 # 7) * (1 + (3 # 9007199254740993)))%Q /\
  (share_outer_lo 3 <= share_inner_lo 3)%Q /\
  (share_inner_hi 3 <= share_outer_hi 3)%Q.
Proof.
  apply (selection_nearly_uniform "{}" (healthy_env one_half) initial_state
           [[("1"%string, 1)]] 3 (mkSong 4 "My Own Worst Enemy" "Lit")).
  - reflexivity.
  - reflexivity.
  - vm_compute. reflexivity.
  - lia.
  - reflexivity.
Defined.

(** The draw [1/2] lies in the inner interval of index 3. *)
Example one_half_in_inner_share :
  (share_inner_lo 3 <= to_Q one_half /\ to_Q one_half < share_inner_hi 3)%Q.
Proof. split; vm_compute; congruence. Qed.

(** The shares are not exactly [1/7]: the largest number below [1/7]
    lies in [[0/7, 1/7)], the interval that exact arithmetic gives to the
    first record, yet the handler computes index 1 and returns the second
    record. *)
Lemma uniform_share_counterexample :
  in_unit_interval below_one_seventh = true /\
  (0 # 7 <= to_Q below_one_seventh /\ to_Q below_one_seventh < (0 + 1) # 7)%Q /\
  to_integer (floor (mul below_one_seventh (array_length songs))) = Some 1 /\
  to_integer (floor (mul below_one_seventh (array_length songs))) <> Some 0 /\
  fst (getRandomSong "{}" (healthy_env below_one_seventh) initial_state)
    = Normal (VSong (mkSong 2 "Smells Like Teen Spirit" "Nirvana")).
Proof.
  split; [vm_compute; reflexivity | ].
  split; [split; vm_compute; congruence | ].
  split; [vm_compute; reflexivity | ].
  split; [vm_compute; discriminate | vm_compute; reflexivity].
Qed.
